(** * jigsaw-multilingual: the noisy wordpiece tokenizer and the
      target-distribution generator of [preprocessor.py]

    A shallow embedding of the two self-contained algorithms of
    [src/preprocessor.py]:

    - [tokenize] (lines 119-168), the wordpiece tokenizer that fails a
      vocabulary match with probability 0.1, and
    - [generate_target_dist] (lines 91-116), the memoised discretised
      truncated normal.

    Python [float]s are IEEE 754 binary64 values: they are modelled by
    the Standard Library's [spec_float] with the binary64 parameters, so
    that every rounding of the source is the rounding of the model.
    Python [int]s are [Z] (or [nat] for indices that never go below zero),
    [str] is [string] and [list(token)] is [list ascii]. *)

From Stdlib Require Import ZArith String Ascii Floats.
From stdpp Require Import gmap strings list.

Local Open Scope string_scope.
Local Open Scope list_scope.
Local Open Scope nat_scope.

(** ** Binary64 arithmetic *)

Module F64.

Local Open Scope Z_scope.

Definition float : Type := spec_float.

Definition add : float -> float -> float := SFadd prec emax.
Definition sub : float -> float -> float := SFsub prec emax.
Definition mul : float -> float -> float := SFmul prec emax.
Definition div : float -> float -> float := SFdiv prec emax.

(** [x < y] and [x == y] of two floats; both are false on a NaN. *)
Definition ltb : float -> float -> bool := SFltb.
Definition eqb : float -> float -> bool := SFeqb.

(** [x == 0.0]: true of both signed zeros. *)
Definition is_zero (x : float) : bool :=
  match x with S754_zero _ => true | _ => false end.

Definition is_nan (x : float) : bool :=
  match x with S754_nan => true | _ => false end.

(** Neither infinite nor NaN. *)
Definition is_finite (x : float) : bool :=
  match x with
  | S754_finite _ _ _ | S754_zero _ => true
  | _ => false
  end.

(** Neither zero nor NaN. *)
Definition proper (x : float) : bool :=
  match x with
  | S754_finite _ _ _ | S754_infinity _ => true
  | _ => false
  end.

(** The literals of the source. *)
Definition zero : float := S754_zero false.
Definition one_tenth : float := S754_finite false 7205759403792794 (-56).
Definition quarter : float := S754_finite false 4503599627370496 (-54).
Definition half : float := S754_finite false 4503599627370496 (-53).
Definition one : float := S754_finite false 4503599627370496 (-52).
Definition two : float := S754_finite false 4503599627370496 (-51).

(** The least positive float, [5e-324]. *)
Definition tiny : float := S754_finite false 1 (-1074).

(** The nearest binary64 value of an integer, ties to even: what
    Python's conversion of an [int] yields when it does not overflow. *)
Definition of_Z (n : Z) : float := binary_normalize prec emax n 0 false.

(** The least magnitude whose nearest binary64 value is infinite: the
    midpoint of the largest finite float [2^1024 - 2^971] and [2^1024]. *)
Definition overflow_threshold : Z := 2 ^ 1024 - 2 ^ 970.

End F64.

Export F64(float).

(** ** Python's arithmetic errors *)

Module Py.

Inductive exception : Type := ZeroDivisionError | OverflowError.

Inductive result (A : Type) : Type :=
| Return (a : A)
| Raise (e : exception).
Arguments Return {A} a.
Arguments Raise {A} e.

#[export] Instance result_ret : MRet result := @Return.
#[export] Instance result_bind : MBind result := fun A B f m =>
  match m with
  | Return a => f a
  | Raise e => Raise e
  end.

(** An [int] operand of a float operation is converted first;
    [OverflowError: int too large to convert to float]. *)
Definition float_of_int (n : Z) : result float :=
  if (Z.abs n <? F64.overflow_threshold)%Z
  then Return (F64.of_Z n)
  else Raise OverflowError.

(** [x / y] on floats; [ZeroDivisionError: float division by zero]. *)
Definition truediv (x y : float) : result float :=
  if F64.is_zero y then Raise ZeroDivisionError else Return (F64.div x y).

(** [range(n)]. *)
Definition range (n : Z) : list Z := Z.of_nat <$> seq 0 (Z.to_nat n).

End Py.

Export Py(exception, result, Return, Raise, ZeroDivisionError, OverflowError).

(** ** The target-distribution generator

    [mean], [low] and [high] are Python floats and [num_bins] is a Python
    int, as the call [generate_target_dist(0.5, 4, 0.0, 1.0)] passes
    them: a float quotient by zero raises, and an int operand of a float
    operation is converted to a float first. *)

Module TargetDist.

Import Py.

Section WithScipy.

(** [scipy.stats.truncnorm.cdf(x, a=, b=, loc=, scale=)], which is not
    code of this repository. It raises on no float arguments: where the
    parameters are invalid it answers NaN. *)
Variable truncnorm_cdf : float -> float -> float -> float -> float -> float.

(** Line 101. *)
Definition radius_of (num_bins : Z) (low high : float) : result float :=
  let numerator := F64.mul F64.half (F64.sub high low) in
  n ← float_of_int num_bins;
  truediv numerator n.

(** Lines 103-112, the closure [trunc_norm_prob] with the variables it
    captures. [center] is an element of a numpy array, so that
    [center + radius] and the final difference are numpy's arithmetic,
    which raises nothing; the two quotients are Python's. *)
Definition trunc_norm_prob (mean low high radius : float) (center : float)
    : result float :=
  let x1 := F64.add center radius in
  a1 ← truediv (F64.sub low mean) radius;
  b1 ← truediv (F64.sub high mean) radius;
  let upper := truncnorm_cdf x1 a1 b1 mean radius in
  let x2 := F64.sub center radius in
  a2 ← truediv (F64.sub low mean) radius;
  b2 ← truediv (F64.sub high mean) radius;
  let lower := truncnorm_cdf x2 a2 b2 mean radius in
  Return (F64.sub upper lower).

(** The element [x * (2 * radius) + radius + low] of line 114. *)
Definition support (radius low : float) (x : Z) : result float :=
  two ← float_of_int 2;
  let diameter := F64.mul two radius in
  x ← float_of_int x;
  Return (F64.add (F64.add (F64.mul x diameter) radius) low).

(** Lines 92-116, without the cache. *)
Definition generate_target_dist (mean : float) (num_bins : Z)
    (low high : float) : result (list float * list float) :=
  radius ← radius_of num_bins low high;
  supports ← mapM (support radius low) (range num_bins);
  probs ← mapM (trunc_norm_prob mean low high radius) supports;
  Return (supports, probs).

(** What the comprehensions of lines 114 and 115 hold when nothing is
    raised. *)
Definition center_at (radius low : float) (x : Z) : float :=
  F64.add (F64.add (F64.mul (F64.of_Z x) (F64.mul F64.two radius)) radius) low.

Definition centers (radius low : float) (num_bins : Z) : list float :=
  center_at radius low <$> range num_bins.

Definition mass (mean low high radius center : float) : float :=
  let a := F64.div (F64.sub low mean) radius in
  let b := F64.div (F64.sub high mean) radius in
  F64.sub (truncnorm_cdf (F64.add center radius) a b mean radius)
          (truncnorm_cdf (F64.sub center radius) a b mean radius).

(** The value of line 101 when nothing is raised. *)
Definition radius_value (num_bins : Z) (low high : float) : float :=
  F64.div (F64.mul F64.half (F64.sub high low)) (F64.of_Z num_bins).

End WithScipy.

(** The centers of the scenario [mean=0.5, num_bins=4, low=0.0,
    high=1.0]: 0.125, 0.375, 0.625 and 0.875. *)
Definition example_centers : list float :=
  [S754_finite false 4503599627370496 (-55);
   S754_finite false 6755399441055744 (-54);
   S754_finite false 5629499534213120 (-53);
   S754_finite false 7881299347898368 (-53)].

(** [1e16] and [1e16 + 2.0], the float next above it: bounds as far
    apart as the floats between them are. *)
Definition coarse_low : float := S754_finite false 5000000000000000 1.
Definition coarse_high : float := S754_finite false 5000000000000001 1.

(** A function to stand for [truncnorm.cdf] where one has to be named:
    the distribution function of the unit mass at [loc]. *)
Definition point_mass_cdf (x a b loc scale : float) : float :=
  if F64.ltb x loc then F64.zero else F64.one.

End TargetDist.

(** ** The noisy wordpiece tokenizer *)

Module Tokenizer.

(** The fields of the [WordpieceTokenizer] instance that [tokenize] is
    bound to and reads through [self]. [vocab] maps a token to its id;
    only membership is used. *)
Record WordpieceTokenizer : Type := {
  vocab : gmap string nat;
  unk_token : string;
  max_input_chars_per_word : Z
}.

(** The two things outside the function that a call touches: the
    module-level random source, of which [draws_used] values have been
    taken, and the vocabulary, of which [queried] lists the candidates
    that [substr in self.vocab] has been evaluated on, oldest first.
    [queried] is history only: nothing reads it back. *)
Record world : Type := {
  draws_used : nat;
  queried : list string
}.

Definition initial_world : world :=
  {| draws_used := 0; queried := [] |}.

(** [str.isspace] on the code points below 256. *)
Definition isspace (c : ascii) : bool :=
  let n := nat_of_ascii c in
  (9 <=? n) && (n <=? 13) || (28 <=? n) && (n <=? 32)
  || (n =? 133) || (n =? 160).

(** [text.strip()]. *)
Fixpoint lstrip (cs : list ascii) : list ascii :=
  match cs with
  | c :: cs' => if isspace c then lstrip cs' else cs
  | [] => []
  end.

Definition strip (cs : list ascii) : list ascii :=
  rev (lstrip (rev (lstrip cs))).

(** [text.split()]: the maximal runs of non-space characters. [cur] is
    the run being read. *)
Fixpoint split (cur : list ascii) (cs : list ascii) : list (list ascii) :=
  match cs with
  | [] => match cur with [] => [] | _ => [cur] end
  | c :: cs' =>
      if isspace c
      then match cur with
           | [] => split [] cs'
           | _ => cur :: split [] cs'
           end
      else split (cur ++ [c]) cs'
  end.

Definition whitespace_tokenize (text : string) : list string :=
  let text := strip (list_ascii_of_string text) in
  match text with
  | [] => []
  | _ => string_of_list_ascii <$> split [] text
  end.

(** [chars[start:end]] for [0 <= start] and [0 <= end]. *)
Definition slice (chars : list ascii) (start end_ : nat) : list ascii :=
  take (end_ - start) (drop start chars).

(** The candidate looked up for the cursor [start] and the end [end_]:
    [substr] as it stands at line 154. *)
Definition candidate (chars : list ascii) (start end_ : nat) : string :=
  let substr := string_of_list_ascii (slice chars start end_) in
  if (0 <? start) then "##" +:+ substr else substr.

Section WithRandomSource.

(** The values that successive calls of [random()] return. *)
Variable draws : nat -> float.

Definition random (w : world) : float * world :=
  (draws (draws_used w),
   {| draws_used := S (draws_used w); queried := queried w |}).

Definition in_vocab (self : WordpieceTokenizer) (substr : string)
    (w : world) : bool * world :=
  (bool_decide (is_Some (vocab self !! substr)),
   {| draws_used := draws_used w; queried := queried w ++ [substr] |}).

(** The inner loop, lines 149-157, entered with the given [end_]. It
    returns [cur_substr], the final [end] and the world. [end] only
    decreases, which is what the recursion follows. *)
Fixpoint inner_loop (self : WordpieceTokenizer) (chars : list ascii)
    (start end_ : nat) (w : world) {struct end_}
    : option string * nat * world :=
  match end_ with
  | O => (None, end_, w)
  | S end' =>
      if (start <? end_) then
        let substr := candidate chars start end_ in
        let '(found, w) := in_vocab self substr w in
        if found then
          let '(r, w) := random w in
          if F64.ltb F64.one_tenth r
          then (Some substr, end_, w)
          else inner_loop self chars start end' w
        else inner_loop self chars start end' w
      else (None, end_, w)
  end.

(** The outer loop, lines 146-162, entered with the given [start] and
    [sub_tokens]. It returns [is_bad], [sub_tokens] and the world, or
    [None] when [fuel] iterations did not reach the loop's exit. *)
Fixpoint outer_loop (fuel : nat) (self : WordpieceTokenizer)
    (chars : list ascii) (start : nat) (sub_tokens : list string)
    (w : world) : option (bool * list string * world) :=
  match fuel with
  | O => None
  | S fuel' =>
      if (start <? length chars) then
        match inner_loop self chars start (length chars) w with
        | (None, _, w) => Some (true, sub_tokens, w)
        | (Some cur_substr, end_, w) =>
            outer_loop fuel' self chars end_
              (sub_tokens ++ [cur_substr]) w
        end
      else Some (false, sub_tokens, w)
  end.

(** The body of the [for] loop, lines 138-167: the tokens that one
    word adds to [output_tokens]. *)
Definition tokenize_word (fuel : nat) (self : WordpieceTokenizer)
    (token : string) (w : world) : option (list string * world) :=
  let chars := list_ascii_of_string token in
  if (Z.of_nat (length chars) >? max_input_chars_per_word self)%Z
  then Some ([unk_token self], w)
  else
    match outer_loop fuel self chars 0 [] w with
    | None => None
    | Some (is_bad, sub_tokens, w) =>
        Some (if is_bad then [unk_token self] else sub_tokens, w)
    end.

(** The [for] loop over the words, with [output_tokens] so far. *)
Fixpoint tokenize_words (fuel : nat) (self : WordpieceTokenizer)
    (tokens : list string) (output_tokens : list string) (w : world)
    : option (list string * world) :=
  match tokens with
  | [] => Some (output_tokens, w)
  | token :: tokens' =>
      match tokenize_word fuel self token w with
      | None => None
      | Some (new_tokens, w) =>
          tokenize_words fuel self tokens'
            (output_tokens ++ new_tokens) w
      end
  end.

Definition tokenize (fuel : nat) (self : WordpieceTokenizer)
    (text : string) (w : world) : option (list string * world) :=
  tokenize_words fuel self (whitespace_tokenize text) [] w.

End WithRandomSource.

(** Undoing the segmentation: the first piece as it is, the
    continuation marker taken off every later piece. *)
Definition strip_marker (piece : string) : string :=
  match piece with
  | String "#" (String "#" rest) => rest
  | _ => piece
  end.

Definition detokenize (pieces : list string) : string :=
  match pieces with
  | [] => ""
  | first :: rest => fold_left append (strip_marker <$> rest) first
  end.

(** What the loops are asked about, in the terms of the source. *)
Section Scan.

Variable draws : nat -> float.
Variable self : WordpieceTokenizer.
Variable chars : list ascii.

(** [c in self.vocab]. *)
Definition known (c : string) : Prop := is_Some (vocab self !! c).

(** The ends [end_, end_ - 1, ..., lo], in the order the inner loop
    takes them. *)
Definition tried_ends (lo end_ : nat) : list nat :=
  rev (seq lo (S end_ - lo)).

(** The loop states [(start, sub_tokens, world)] at which the outer loop
    evaluates its condition, when it is entered at [start = 0] with no
    sub-token in the world [w0]. *)
Inductive visits (w0 : world) : nat -> list string -> world -> Prop :=
| visits_entry : visits w0 0 [] w0
| visits_next start sub_tokens w cur_substr end_ w' :
    visits w0 start sub_tokens w ->
    start < length chars ->
    inner_loop draws self chars start (length chars) w
      = (Some cur_substr, end_, w') ->
    visits w0 end_ (sub_tokens ++ [cur_substr]) w'.

End Scan.

(** Every draw exceeds 0.1: no match is failed. *)
Definition no_corruption (draws : nat -> float) : Prop :=
  forall i, F64.ltb F64.one_tenth (draws i) = true.

(** What a run from the world [w] to the world [w'] used up. *)
Definition draws_consumed (w w' : world) : nat :=
  draws_used w' - draws_used w.

Definition candidates_tried (w w' : world) : nat :=
  length (queried w') - length (queried w).

(** A random source that never corrupts a match, and one that always
    does. *)
Definition always_half : nat -> float := fun _ => F64.half.
Definition always_zero : nat -> float := fun _ => F64.zero.

Definition bert (v : list string) : WordpieceTokenizer :=
  {| vocab := list_to_map (zip v (seq 0 (length v)));
     unk_token := "[UNK]";
     max_input_chars_per_word := 100%Z |}.

End Tokenizer.

(** ** The cache of the generator *)

Module Memo.
Import Py TargetDist.

(** The arguments of a call, which [lru_cache] turns into the key. *)
Definition key : Type := float * Z * float * float.
Definition value : Type := list float * list float.

(** A float argument is found in the cache when it is [==] to the
    stored one: the two zeros are one key, and a NaN, which is [==] to
    nothing, is found under no stored value. Python also finds an
    argument that is the very object stored; the model has the values of
    the arguments, not the objects, and takes the arguments of each call
    as objects of their own, as [float('nan')] makes them. *)
Definition arg_eqb (x y : float) : bool := F64.eqb x y.

Definition key_eqb (k k' : key) : bool :=
  let '(mean, num_bins, low, high) := k in
  let '(mean', num_bins', low', high') := k' in
  arg_eqb mean mean' && (num_bins =? num_bins')%Z
  && arg_eqb low low' && arg_eqb high high'.

Definition cache_get (k : key) (c : list (key * value)) : option value :=
  snd <$> List.find (fun entry => key_eqb (fst entry) k) c.

Section Decorator.

(** What the decorated function can change when it runs, and the
    function itself: from the key and the world to what it returns or
    raises and the world it leaves. *)
Context {W : Type}.
Variable f : key -> W -> result value * W.

(** [lru_cache(maxsize=None)(f)]: a hit answers from the cache and does
    not call [f]; a miss calls [f] and stores what it returns; what [f]
    raises is not stored. Nothing is ever evicted. A hit answers the
    stored pair of arrays itself; the model has their values, not the
    objects. *)
Definition lru_cache (c : list (key * value)) (k : key) (w : W)
    : result value * list (key * value) * W :=
  match cache_get k c with
  | Some v => (Return v, c, w)
  | None =>
      match f k w with
      | (Return v, w') => (Return v, c ++ [(k, v)], w')
      | (Raise e, w') => (Raise e, c, w')
      end
  end.

End Decorator.

(** A function of the key alone as a function that counts, in the
    world, the times it has been entered. *)
Definition counting (f : key -> result value) (k : key) (entered : nat)
    : result value * nat :=
  (f k, S entered).

(** The cache of the decorated function, and how many times the
    undecorated function has been entered. *)
Record memo : Type := {
  cache : list (key * value);
  computations : nat
}.

Definition empty_memo : memo := {| cache := []; computations := 0 |}.

(** A call of [lru_cache(maxsize=None)(f)] for an [f] of the key
    alone. *)
Definition memo_call (f : key -> result value) (m : memo) (k : key)
    : result value * memo :=
  let '(r, c, entered) :=
    lru_cache (counting f) (cache m) k (computations m) in
  (r, {| cache := c; computations := entered |}).

(** The decorated [generate_target_dist] of line 91. *)
Definition cached_generate_target_dist
    (truncnorm_cdf : float -> float -> float -> float -> float -> float)
    (m : memo) (mean : float) (num_bins : Z) (low high : float)
    : result value * memo :=
  memo_call (fun '(mean, num_bins, low, high) =>
               generate_target_dist truncnorm_cdf mean num_bins low high)
    m (mean, num_bins, low, high).

End Memo.

(** ** Whitespace cleaning, batches and repeated calls *)

Module Cleaning.

Import Tokenizer.

(** Every draw is at most 0.1: every match is failed. *)
Definition always_corrupted (draws : nat -> float) : Prop :=
  forall i, F64.ltb F64.one_tenth (draws i) = false.

(** No whitespace character. *)
Definition spaceless (cs : list ascii) : Prop :=
  Forall (fun c => isspace c = false) cs.

(** [cln] of [classifier_baseline.py], lines 191-192, and of
    [classifier_dual_model.py], lines 174-175: [' '.join(x.split())]. *)
Definition cln (x : string) : string :=
  String.concat " " (string_of_list_ascii <$> split [] (list_ascii_of_string x)).

End Cleaning.

Module Batching.

(** [range(0, stop, step)] for a positive [step]. *)
Definition range_by (stop step : nat) : list nat :=
  let len := if 0 <? stop then (stop - 1) / step + 1 else 0 in
  (fun i => i * step) <$> seq 0 len.

(** [rows[start:end]] for [0 <= start] and [0 <= end]. *)
Definition rows_slice {A : Type} (rows : list A) (start end_ : nat) : list A :=
  take (end_ - start) (drop start rows).

(** The batch that starts at [batch_idx_start]: [n] is the length the
    loop counts to and [rows] the array it slices. *)
Definition batch_at {A : Type} (BATCH_SIZE : nat) (rows : list A) (n : nat)
    (batch_idx_start : nat) : list A :=
  let batch_idx_end := Nat.min (batch_idx_start + BATCH_SIZE) n in
  rows_slice rows batch_idx_start batch_idx_end.

(** The batches that the loops of [predict_evaluate]
    ([classifier_baseline.py], lines 121-123, [classifier_dual_model.py],
    lines 115-117), of [evaluate] ([classifier_torch.py], lines 124-126)
    and of [train] feed to the model, in order. *)
Definition batches {A : Type} (BATCH_SIZE : nat) (rows : list A) (n : nat)
    : list (list A) :=
  batch_at BATCH_SIZE rows n <$> range_by n BATCH_SIZE.

(** What [train] of [classifier_baseline.py] (lines 86-112) and of
    [classifier_dual_model.py] (lines 79-103) does to the optimizer:
    [optimizer_steps] counts the calls of [opt.step()], [unapplied] the
    calls of [loss.backward()] since the last [opt.zero_grad()]. *)
Record optimizer : Type := {
  optimizer_steps : nat;
  unapplied : nat
}.

Definition backward (opt : optimizer) : optimizer :=
  {| optimizer_steps := optimizer_steps opt; unapplied := S (unapplied opt) |}.

Definition step_zero_grad (opt : optimizer) : optimizer :=
  {| optimizer_steps := S (optimizer_steps opt); unapplied := 0 |}.

(** One turn of the loop over the batches, on [iter] and the optimizer. *)
Definition turn (ACCUM_FOR : nat) (state : nat * optimizer)
    (batch_idx_start : nat) : nat * optimizer :=
  let '(iter, opt) := state in
  let iter := iter + 1 in
  let opt := backward opt in
  if iter mod ACCUM_FOR =? 0
  then (iter, step_zero_grad opt)
  else (iter, opt).

(** The loop over the batches of [n] training rows. *)
Definition train (BATCH_SIZE ACCUM_FOR n : nat) (opt : optimizer) : optimizer :=
  snd (fold_left (turn ACCUM_FOR) (range_by n BATCH_SIZE) (0, opt)).

(** After [iter] turns from the optimizer [opt0]. *)
Definition counted (ACCUM_FOR : nat) (opt0 : optimizer)
    (state : nat * optimizer) : Prop :=
  let '(iter, opt) := state in
  optimizer_steps opt = optimizer_steps opt0 + iter / ACCUM_FOR
  /\ unapplied opt = if iter <? ACCUM_FOR
                     then unapplied opt0 + iter
                     else iter mod ACCUM_FOR.

End Batching.

Module Calls.

Import Py Memo.

(** The cache after the calls of the decorated function with the keys
    [ks] in turn. *)
Definition after_calls (f : key -> result value) (m : memo) (ks : list key)
    : memo :=
  fold_left (fun m k => snd (memo_call f m k)) ks m.

(** The undecorated function on a key. *)
Definition generator
    (truncnorm_cdf : float -> float -> float -> float -> float -> float)
    : key -> result value :=
  fun '(mean, num_bins, low, high) =>
    TargetDist.generate_target_dist truncnorm_cdf mean num_bins low high.

(** The arguments that are one key to the cache: both are zeros, or they
    are the same float. *)
Definition same_arg (x y : float) : Prop :=
  (F64.is_zero x = true /\ F64.is_zero y = true) \/ x = y.

(** Every entry holds what the function returns on its key, and no
    entry was stored without entering the function. *)
Definition sound (f : key -> result value) (m : memo) : Prop :=
  Forall (fun entry => f (fst entry) = Return (snd entry)) (cache m)
  /\ length (cache m) <= computations m.

End Calls.

(** ** The literals

    The constants of [F64] are the kernel's binary64 literals, and the
    overflow threshold is where the conversion of an integer turns
    infinite. *)
Example one_tenth_literal : Prim2SF 0x1.999999999999ap-4%float = F64.one_tenth.
Proof. reflexivity. Qed.

Example half_literal : Prim2SF 0.5%float = F64.half.
Proof. reflexivity. Qed.

Example one_literal : Prim2SF 1%float = F64.one.
Proof. reflexivity. Qed.

Example two_literal : Prim2SF 2%float = F64.two.
Proof. reflexivity. Qed.

Example of_Z_two : F64.of_Z 2%Z = F64.two.
Proof. reflexivity. Qed.

Example of_Z_largest_finite :
  F64.of_Z (F64.overflow_threshold - 1)%Z
  = S754_finite false 9007199254740991 971.
Proof. vm_compute. reflexivity. Qed.

Example of_Z_overflows :
  F64.of_Z F64.overflow_threshold = S754_infinity false.
Proof. vm_compute. reflexivity. Qed.

Example example_centers_literals :
  Prim2SF <$> [0.125; 0.375; 0.625; 0.875]%float = TargetDist.example_centers.
Proof. reflexivity. Qed.

Example tiny_literal : Prim2SF 0x1p-1074%float = F64.tiny.
Proof. reflexivity. Qed.

Example quarter_literal : Prim2SF 0.25%float = F64.quarter.
Proof. reflexivity. Qed.

Example coarse_bounds_literals :
  Prim2SF <$> [1e16; 10000000000000002]%float
  = [TargetDist.coarse_low; TargetDist.coarse_high]
  /\ F64.of_Z (10 ^ 16) = TargetDist.coarse_low
  /\ F64.add TargetDist.coarse_low F64.two = TargetDist.coarse_high.
Proof. repeat split; vm_compute; reflexivity. Qed.

(** ** Facts about binary64 arithmetic *)

Module F64Facts.
Local Open Scope Z_scope.

Lemma digits2_pos_size m : digits2_pos m = Pos.size m.
Proof. induction m; simpl; congruence. Qed.

(** A positive number has at least the weight of its leading digit. *)
Lemma digits2_pos_weight m : 2 ^ (Z.pos (digits2_pos m) - 1) <= Z.pos m.
Proof.
  rewrite digits2_pos_size.
  pose proof (Pos.size_le m) as H.
  apply Pos2Z.pos_le_pos in H. rewrite Pos2Z.inj_pow in H.
  replace (Z.pos (Pos.size m)) with (Z.succ (Z.pos (Pos.size m) - 1)) in H by lia.
  rewrite Z.pow_succ_r in H by lia.
  change (Z.pos m~0) with (2 * Z.pos m) in H. lia.
Qed.

Lemma shr_1_halves mrs : 0 <= shr_m mrs -> shr_m (shr_1 mrs) = Z.div2 (shr_m mrs).
Proof.
  destruct mrs as [m r s]. simpl. intros Hm.
  destruct m as [|[p|p|]|p]; try reflexivity; lia.
Qed.

Lemma iter_shr_1_shifts p : forall mrs,
  0 <= shr_m mrs ->
  shr_m (SpecFloat.iter_pos shr_1 p mrs) = Z.shiftr (shr_m mrs) (Z.pos p).
Proof.
  induction p as [p IH|p IH|]; intros mrs Hm; simpl SpecFloat.iter_pos.
  - assert (H1 : 0 <= shr_m (shr_1 mrs)).
    { rewrite shr_1_halves by exact Hm. apply Z.div2_nonneg. exact Hm. }
    assert (H2 : 0 <= shr_m (SpecFloat.iter_pos shr_1 p (shr_1 mrs))).
    { rewrite IH by exact H1. apply Z.shiftr_nonneg. exact H1. }
    rewrite IH by exact H2. rewrite IH by exact H1.
    rewrite shr_1_halves by exact Hm. rewrite Z.div2_spec.
    rewrite !Z.shiftr_shiftr by lia. f_equal. lia.
  - assert (H2 : 0 <= shr_m (SpecFloat.iter_pos shr_1 p mrs)).
    { rewrite IH by exact Hm. apply Z.shiftr_nonneg. exact Hm. }
    rewrite IH by exact H2. rewrite IH by exact Hm.
    rewrite Z.shiftr_shiftr by lia. f_equal. lia.
  - rewrite shr_1_halves by exact Hm. apply Z.div2_spec.
Qed.

Lemma shr_record_of_loc_m m l : shr_m (shr_record_of_loc m l) = m.
Proof. destruct l as [|[]]; reflexivity. Qed.

(** Above the least exponent, the shift that fits a mantissa to the
    format leaves it positive. *)
Lemma shr_fexp_positive m e l :
  0 < m -> emin <= e ->
  0 < shr_m (fst (shr_fexp prec emax m e l))
  /\ emin <= snd (shr_fexp prec emax m e l).
Proof.
  intros Hm He. unfold shr_fexp, shr.
  destruct m as [|m|m]; try lia. simpl Zdigits2.
  pose proof (digits2_pos_weight m) as Hw.
  set (d := Z.pos (digits2_pos m)) in *.
  assert (Hd : 0 < d) by (unfold d; lia).
  unfold fexp. fold emin.
  destruct (Z.max (d + e - prec) emin - e) as [|n|n] eqn:Hn; simpl fst; simpl snd.
  - rewrite shr_record_of_loc_m. lia.
  - rewrite iter_shr_1_shifts by (rewrite shr_record_of_loc_m; lia).
    rewrite shr_record_of_loc_m.
    assert (Hnd : Z.pos n <= d - 1) by (unfold prec in *; lia).
    split; [|lia].
    rewrite Z.shiftr_div_pow2 by lia.
    apply Z.div_str_pos. split; [apply Z.pow_pos_nonneg; lia|].
    etransitivity; [|exact Hw]. apply Z.pow_le_mono_r; lia.
  - rewrite shr_record_of_loc_m. lia.
Qed.

Lemma round_nearest_even_ge m l : m <= round_nearest_even m l.
Proof. destruct l as [|[]]; simpl; try destruct (Z.even m); lia. Qed.

Lemma binary_round_aux_proper sx m e l :
  0 < m -> emin <= e -> F64.proper (binary_round_aux prec emax sx m e l) = true.
Proof.
  intros Hm He. unfold binary_round_aux.
  destruct (shr_fexp_positive m e l Hm He) as [Hm1 He1].
  destruct (shr_fexp prec emax m e l) as [mrs1 e1]. simpl in Hm1, He1.
  pose proof (round_nearest_even_ge (shr_m mrs1) (loc_of_shr_record mrs1)) as Hr.
  set (m2 := round_nearest_even _ _) in *.
  assert (Hm2 : 0 < m2) by lia.
  destruct (shr_fexp_positive m2 e1 loc_Exact Hm2 He1) as [Hm3 _].
  destruct (shr_fexp prec emax m2 e1 loc_Exact) as [mrs3 e3]. simpl in Hm3.
  destruct (shr_m mrs3); try lia.
  destruct (_ <=? _); reflexivity.
Qed.

Lemma of_Z_proper n : n <> 0 -> F64.proper (F64.of_Z n) = true.
Proof.
  intros Hn. unfold F64.of_Z, binary_normalize.
  assert (H : forall s p, F64.proper (binary_round prec emax s p 0) = true).
  { intros s p. unfold binary_round, shl_align.
    destruct (fexp prec emax (Z.pos (digits2_pos p) + 0) - 0) eqn:Hd;
      apply binary_round_aux_proper; try lia;
      unfold fexp, emin, prec, emax in *; lia. }
  destruct n; [congruence | apply H | apply H].
Qed.

Lemma of_Z_not_zero n : n <> 0 -> F64.is_zero (F64.of_Z n) = false.
Proof.
  intros Hn. pose proof (of_Z_proper n Hn) as H.
  destruct (F64.of_Z n); simpl in *; congruence.
Qed.

Lemma add_comm x y : F64.add x y = F64.add y x.
Proof.
  unfold F64.add.
  destruct x as [sx|sx| |sx mx ex], y as [sy|sy| |sy my ey];
    try reflexivity; try (destruct sx, sy; reflexivity).
  unfold SFadd. rewrite (Z.min_comm ey ex). f_equal. apply Z.add_comm.
Qed.

Lemma sub_diag x : F64.is_finite x = true -> F64.is_zero (F64.sub x x) = true.
Proof.
  destruct x as [s|s| |s m e]; try discriminate; intros _.
  - destruct s; reflexivity.
  - unfold F64.sub, SFsub. rewrite Z.sub_diag. reflexivity.
Qed.

Lemma mul_zero_r x y :
  F64.is_finite x = true -> F64.is_zero y = true -> F64.is_zero (F64.mul x y) = true.
Proof.
  destruct x as [sx|sx| |sx mx ex], y as [sy|sy| |sy my ey];
    try discriminate; reflexivity.
Qed.

Lemma div_zero_l x y :
  F64.is_zero x = true -> F64.proper y = true -> F64.is_zero (F64.div x y) = true.
Proof.
  destruct x as [sx|sx| |sx mx ex], y as [sy|sy| |sy my ey];
    try discriminate; reflexivity.
Qed.

Lemma zero_mul_add x y :
  F64.is_finite x = true -> F64.is_zero y = false ->
  F64.add (F64.mul (F64.of_Z 0) x) y = y.
Proof.
  destruct x as [sx|sx| |sx mx ex], y as [sy|sy| |sy my ey];
    try discriminate; reflexivity.
Qed.

Lemma eqb_finite_eq x y :
  F64.is_finite x = true -> F64.eqb x y = true ->
  F64.is_zero (F64.sub y x) = true.
Proof.
  unfold F64.eqb, SFeqb.
  destruct x as [sx|sx| |sx mx ex], y as [sy|sy| |sy my ey];
    intros Hfin H; simpl in Hfin, H; try discriminate;
    try (destruct sx, sy; reflexivity);
    try (destruct sx; discriminate); try (destruct sy; discriminate).
    assert (Heq : ex = ey /\ mx = my /\ sx = sy).
    { destruct sx, sy; try discriminate;
        destruct (ex ?= ey) eqn:He; try discriminate;
        destruct (Pos.compare_cont Eq mx my) eqn:Hm; try discriminate;
        apply Z.compare_eq in He; apply Pos.compare_eq in Hm; auto. }
    destruct Heq as (-> & -> & ->).
    apply (sub_diag (S754_finite sy my ey)). reflexivity.
Qed.

Lemma compare_refl x : F64.is_nan x = false -> SFcompare x x = Some Eq.
Proof.
  destruct x as [s|s| |s m e]; try discriminate; intros _; simpl.
  - reflexivity.
  - destruct s; reflexivity.
  - rewrite Z.compare_refl.
    assert (H : Pos.compare_cont Eq m m = Eq) by apply Pos.compare_refl.
    rewrite H. destruct s; reflexivity.
Qed.

End F64Facts.

(** ** Facts about the tokenizer's two loops *)

Module TokenizerFacts.

Import Tokenizer.

Section Loops.
Variable draws : nat -> float.
Variable self : WordpieceTokenizer.
Variable chars : list ascii.

Lemma tried_ends_step lo end_ :
  (lo <= S end_) -> tried_ends lo (S end_) = S end_ :: tried_ends lo end_.
Proof.
  intros Hlo. unfold tried_ends.
  replace (S (S end_) - lo)%nat with (S (S end_ - lo)) by lia.
  rewrite seq_S, rev_app_distr. simpl. f_equal. f_equal. lia.
Qed.

Lemma inner_loop_spec start end_ w r e w' :
  inner_loop draws self chars start end_ w = (r, e, w') ->
  let lo := match r with Some _ => e | None => S start end in
  let tried := candidate chars start <$> tried_ends lo end_ in
  queried w' = queried w ++ tried
  /\ draws_used w' = (draws_used w + length (filter (known self) tried))%nat
  /\ match r with
     | Some c =>
         (start < e <= end_) /\ c = candidate chars start e /\ known self c
         /\ F64.ltb F64.one_tenth (draws (pred (draws_used w'))) = true
     | None => e = Nat.min start end_
     end.
Proof.
  revert w r e w'. induction end_ as [|end' IH]; intros w r e w' H; simpl in H.
  - inversion H; subst; clear H. simpl. unfold tried_ends. simpl.
    rewrite app_nil_r. repeat split; lia.
  - destruct (start <? S end') eqn:Hlt.
    + apply Nat.ltb_lt in Hlt.
      destruct (bool_decide (is_Some (vocab self !! candidate chars start (S end')))) eqn:Hin.
      * apply bool_decide_eq_true in Hin.
        destruct (F64.ltb F64.one_tenth (draws (draws_used w))) eqn:Hr.
        -- inversion H; subst; clear H. simpl.
           unfold tried_ends. replace (S (S end') - S end')%nat with 1 by lia.
           simpl. rewrite filter_cons_True by exact Hin. simpl.
           repeat split; try lia; auto.
        -- apply IH in H. simpl in H. destruct H as (Hq & Hd & Hr').
           simpl in *.
           assert (Hlo : (match r with Some _ => e | None => S start end <= S end')).
           { destruct r; [destruct Hr' as [[? ?] _]|]; lia. }
           rewrite (tried_ends_step _ _ Hlo), fmap_cons.
           rewrite filter_cons_True by exact Hin.
           split; [|split].
           ++ rewrite Hq, <- app_assoc. reflexivity.
           ++ rewrite Hd. cbn [length]. lia.
           ++ destruct r; [|lia].
              destruct Hr' as ([? ?] & ? & ? & ?). repeat split; auto; lia.
      * apply bool_decide_eq_false in Hin.
        apply IH in H. simpl in H. destruct H as (Hq & Hd & Hr').
        simpl in *.
        assert (Hlo : (match r with Some _ => e | None => S start end <= S end')).
        { destruct r; [destruct Hr' as [[? ?] _]|]; lia. }
        rewrite (tried_ends_step _ _ Hlo), fmap_cons.
        rewrite filter_cons_False by exact Hin.
           split; [|split].
           ++ rewrite Hq, <- app_assoc. reflexivity.
           ++ rewrite Hd. cbn [length]. lia.
           ++ destruct r; [|lia].
              destruct Hr' as ([? ?] & ? & ? & ?). repeat split; auto; lia.
    + apply Nat.ltb_ge in Hlt. inversion H; subst; clear H. simpl.
      unfold tried_ends. replace (S (S end') - S start)%nat with 0 by lia.
      simpl. rewrite app_nil_r. repeat split; lia.
Qed.

Lemma outer_loop_unfold fuel start sub_tokens w :
  outer_loop draws (S fuel) self chars start sub_tokens w =
  if start <? length chars then
    match inner_loop draws self chars start (length chars) w with
    | (None, _, w) => Some (true, sub_tokens, w)
    | (Some cur_substr, end_, w) =>
        outer_loop draws fuel self chars end_ (sub_tokens ++ [cur_substr]) w
    end
  else Some (false, sub_tokens, w).
Proof. reflexivity. Qed.

(** Whatever fuel covers the rest of the word gives the same run. *)
Lemma outer_loop_fuel fuel fuel' start sub_tokens w :
  length chars - start < fuel -> length chars - start < fuel' ->
  outer_loop draws fuel self chars start sub_tokens w
  = outer_loop draws fuel' self chars start sub_tokens w.
Proof.
  revert fuel' start sub_tokens w.
  induction fuel as [|fuel IH]; intros fuel' start sub_tokens w Hf Hf'; [lia|].
  destruct fuel' as [|fuel']; [lia|].
  rewrite !outer_loop_unfold.
  destruct (start <? length chars) eqn:Hlt; [|reflexivity].
  apply Nat.ltb_lt in Hlt.
  destruct (inner_loop draws self chars start (length chars) w)
    as [[[c|] e] w'] eqn:Hin; [|reflexivity].
  apply inner_loop_spec in Hin. destruct Hin as (_ & _ & He & _).
  apply IH; lia.
Qed.

(** A run that starts at the loop's entry and one that starts at a
    state the loop visits end alike. *)
Lemma visits_resume w0 start sub_tokens w fuel :
  visits draws self chars w0 start sub_tokens w -> length chars < fuel ->
  start <= length chars
  /\ outer_loop draws fuel self chars 0 [] w0
     = outer_loop draws fuel self chars start sub_tokens w.
Proof.
  intros Hv Hf. induction Hv as [|start sub_tokens w c e w' Hv IH Hlt Hin].
  - split; [lia | reflexivity].
  - destruct IH as [_ IH]. rewrite IH.
    destruct fuel as [|fuel]; [lia|].
    rewrite outer_loop_unfold.
    apply Nat.ltb_lt in Hlt as Hlt'. rewrite Hlt', Hin.
    apply inner_loop_spec in Hin. destruct Hin as (_ & _ & He & _).
    split; [lia|]. apply outer_loop_fuel; lia.
Qed.

(** The outer loop ends, in one of its two ways: at a visited state
    past the last character, or at a visited state from which no
    candidate is accepted. *)
Lemma outer_loop_ends w0 fuel :
  length chars < fuel ->
  exists is_bad sub_tokens w',
    outer_loop draws fuel self chars 0 [] w0 = Some (is_bad, sub_tokens, w')
    /\ if is_bad
       then exists start w e,
              visits draws self chars w0 start sub_tokens w /\ start < length chars
              /\ inner_loop draws self chars start (length chars) w
                 = (None, e, w')
       else visits draws self chars w0 (length chars) sub_tokens w'.
Proof.
  intros Hf.
  assert (Hgen : forall n start sub_tokens w,
             length chars - start < n -> n <= fuel ->
             visits draws self chars w0 start sub_tokens w ->
             exists is_bad sub_tokens' w',
               outer_loop draws n self chars start sub_tokens w
               = Some (is_bad, sub_tokens', w')
               /\ if is_bad
                  then exists start' w1 e,
                      visits draws self chars w0 start' sub_tokens' w1
                      /\ start' < length chars
                      /\ inner_loop draws self chars start' (length chars) w1
                         = (None, e, w')
                  else visits draws self chars w0 (length chars) sub_tokens' w').
  { induction n as [|n IH]; intros start sub_tokens w Hn Hle Hv; [lia|].
    rewrite outer_loop_unfold.
    destruct (start <? length chars) eqn:Hlt.
    - apply Nat.ltb_lt in Hlt.
      destruct (inner_loop draws self chars start (length chars) w)
        as [[[c|] e] w'] eqn:Hin.
      + pose proof (visits_next _ _ _ _ _ _ _ _ _ _ Hv Hlt Hin) as Hv'.
        apply inner_loop_spec in Hin. destruct Hin as (_ & _ & He & _).
        apply IH; [lia | lia | exact Hv'].
      + exists true, sub_tokens, w'. split; [reflexivity|].
        exists start, w, e. auto.
    - apply Nat.ltb_ge in Hlt.
      exists false, sub_tokens, w. split; [reflexivity|].
      destruct (visits_resume _ _ _ _ fuel Hv Hf) as [Hle' _].
      replace (length chars) with start by lia. exact Hv. }
  apply (Hgen fuel 0 [] w0); [lia | lia | constructor].
Qed.

End Loops.

Lemma length_list_ascii_of_string (s : string) :
  length (list_ascii_of_string s) = String.length s.
Proof. induction s as [|c s IH]; simpl; congruence. Qed.

Lemma string_of_list_ascii_app (l1 l2 : list ascii) :
  string_of_list_ascii (l1 ++ l2)
  = string_of_list_ascii l1 +:+ string_of_list_ascii l2.
Proof.
  induction l1 as [|c l1 IH]; [reflexivity|].
  change (String c (string_of_list_ascii (l1 ++ l2))
          = String c (string_of_list_ascii l1 +:+ string_of_list_ascii l2)).
  rewrite IH. reflexivity.
Qed.

Lemma take_slice (chars : list ascii) (start end_ : nat) :
  start <= end_ -> take end_ chars = take start chars ++ slice chars start end_.
Proof.
  intros H. unfold slice.
  replace end_ with (start + (end_ - start)) at 1 by lia.
  rewrite <- (take_drop start chars) at 1.
  destruct (decide (start <= length chars)) as [Hs|Hs].
  - rewrite take_app_add'; [reflexivity|]. rewrite length_take. lia.
  - rewrite (drop_ge chars start) by lia. rewrite !take_nil, !app_nil_r.
    rewrite !take_ge; try reflexivity; try lia. rewrite length_take; lia.
Qed.

Lemma detokenize_snoc (pieces : list string) (piece : string) :
  pieces <> [] ->
  detokenize (pieces ++ [piece]) = detokenize pieces +:+ strip_marker piece.
Proof.
  destruct pieces as [|first rest]; [congruence|]. intros _. simpl.
  rewrite fmap_app, fold_left_app. reflexivity.
Qed.

Section Visits.
Variable draws : nat -> float.
Variable self : WordpieceTokenizer.
Variable chars : list ascii.

Lemma visits_bound w0 start sub_tokens w :
  visits draws self chars w0 start sub_tokens w -> start <= length chars.
Proof.
  intros Hv. destruct Hv as [|start sub_tokens w c e w' Hv Hlt Hin]; [lia|].
  apply inner_loop_spec in Hin. destruct Hin as (_ & _ & He & _). lia.
Qed.

Lemma visits_accounting w0 start sub_tokens w :
  visits draws self chars w0 start sub_tokens w ->
  exists tried,
    queried w = queried w0 ++ tried
    /\ draws_used w = draws_used w0 + length (filter (known self) tried).
Proof.
  intros Hv. induction Hv as [|start sub_tokens w c e w' Hv IH Hlt Hin].
  - exists []. rewrite app_nil_r. split; [reflexivity | simpl; lia].
  - destruct IH as (tried & Hq & Hd).
    apply inner_loop_spec in Hin. destruct Hin as (Hq' & Hd' & _).
    eexists (tried ++ _). rewrite app_assoc, <- Hq. split; [exact Hq'|].
    rewrite filter_app, length_app, Hd', Hd. lia.
Qed.

Lemma visits_detokenize w0 start sub_tokens w :
  visits draws self chars w0 start sub_tokens w ->
  detokenize sub_tokens = string_of_list_ascii (take start chars)
  /\ (sub_tokens = [] <-> start = 0).
Proof.
  intros Hv. induction Hv as [|start sub_tokens w c e w' Hv IH Hlt Hin].
  - split; [reflexivity | tauto].
  - destruct IH as [Hd Hz].
    apply inner_loop_spec in Hin. destruct Hin as (_ & _ & He & Hc & _).
    split; [|split; [intros Hnil; destruct sub_tokens; discriminate | lia]].
    rewrite (take_slice chars start e) by lia.
    rewrite string_of_list_ascii_app, <- Hd. subst c. unfold candidate.
    destruct start as [|start].
    + assert (sub_tokens = []) as -> by tauto. reflexivity.
    + rewrite detokenize_snoc; [reflexivity|].
      intros Hnil. apply Hz in Hnil. discriminate.
Qed.
End Visits.

Section Ext.
Variables draws draws' : nat -> float.
Hypothesis same_verdicts :
  forall i, F64.ltb F64.one_tenth (draws i) = F64.ltb F64.one_tenth (draws' i).

Lemma inner_loop_ext self chars start end_ w :
  inner_loop draws self chars start end_ w
  = inner_loop draws' self chars start end_ w.
Proof.
  revert w. induction end_ as [|end' IH]; intros w; simpl; [reflexivity|].
  rewrite same_verdicts. rewrite !IH. reflexivity.
Qed.

Lemma outer_loop_ext fuel self chars start sub_tokens w :
  outer_loop draws fuel self chars start sub_tokens w
  = outer_loop draws' fuel self chars start sub_tokens w.
Proof.
  revert start sub_tokens w. induction fuel as [|fuel IH]; intros; simpl; [reflexivity|].
  rewrite inner_loop_ext.
  destruct (start <? length chars); [|reflexivity].
  destruct (inner_loop draws' self chars start (length chars) w) as [[[c|] e] w']; auto.
Qed.

Lemma tokenize_word_ext fuel self token w :
  tokenize_word draws fuel self token w = tokenize_word draws' fuel self token w.
Proof. unfold tokenize_word. rewrite outer_loop_ext. reflexivity. Qed.
End Ext.

Section Totality.
Variable draws : nat -> float.
Variable self : WordpieceTokenizer.

Lemma tokenize_word_total fuel token w :
  String.length token < fuel ->
  exists out w',
    tokenize_word draws fuel self token w = Some (out, w')
    /\ (token <> "" -> out <> []).
Proof.
  intros Hf. unfold tokenize_word.
  destruct (_ >? _)%Z; [eexists _, _; split; [reflexivity | discriminate]|].
  rewrite <- length_list_ascii_of_string in Hf.
  destruct (outer_loop_ends draws self _ w fuel Hf)
    as (is_bad & sub_tokens & w' & -> & Hend).
  eexists _, _. split; [reflexivity|].
  destruct is_bad; [discriminate|].
  intros Hne Hnil. apply visits_detokenize in Hend. destruct Hend as [_ Hz].
  apply Hz in Hnil. apply Hne.
  rewrite <- (string_of_list_ascii_of_string token).
  destruct (list_ascii_of_string token); [reflexivity | discriminate].
Qed.

Lemma tokenize_words_total fuel tokens output_tokens w :
  Forall (fun token => token <> "" /\ String.length token < fuel) tokens ->
  exists out w',
    tokenize_words draws fuel self tokens output_tokens w = Some (out, w')
    /\ length output_tokens + length tokens <= length out.
Proof.
  intros Hall. revert output_tokens w.
  induction Hall as [|token tokens [Hne Hf] _ IH]; intros output_tokens w.
  - eexists _, _. split; [reflexivity | simpl; lia].
  - simpl.
    destruct (tokenize_word_total fuel token w Hf) as (new & w1 & -> & Hnew).
    destruct (IH (output_tokens ++ new) w1) as (out & w' & -> & Hlen).
    eexists _, _. split; [reflexivity|].
    rewrite length_app in Hlen. specialize (Hnew Hne).
    destruct new; [congruence | simpl in *; lia].
Qed.
End Totality.

Lemma lstrip_length cs : length (lstrip cs) <= length cs.
Proof.
  induction cs as [|c cs IH]; simpl; [lia|].
  destruct (isspace c); simpl; lia.
Qed.

Lemma strip_length cs : length (strip cs) <= length cs.
Proof.
  unfold strip. rewrite length_rev.
  etransitivity; [apply lstrip_length|]. rewrite length_rev. apply lstrip_length.
Qed.

Lemma split_words cs : forall cur,
  Forall (fun word => word <> [] /\ length word <= length cur + length cs)
    (split cur cs).
Proof.
  induction cs as [|c cs IH]; intros cur; simpl.
  - destruct cur; constructor; [split; [discriminate | simpl; lia] | constructor].
  - destruct (isspace c).
    + destruct cur as [|c' cur'].
      * eapply Forall_impl; [apply IH|]. simpl. intros word [? ?]. split; [assumption | lia].
      * constructor; [split; [discriminate | simpl; lia]|].
        eapply Forall_impl; [apply IH|]. simpl. intros word [? ?]. split; [assumption | lia].
    + eapply Forall_impl; [apply IH|]. simpl. intros word [? ?].
      split; [assumption|]. rewrite length_app in *. simpl in *. lia.
Qed.

Lemma whitespace_tokenize_words text :
  Forall (fun token => token <> "" /\ String.length token <= String.length text)
    (whitespace_tokenize text).
Proof.
  unfold whitespace_tokenize.
  pose proof (strip_length (list_ascii_of_string text)) as Hs.
  rewrite length_list_ascii_of_string in Hs.
  destruct (strip (list_ascii_of_string text)) as [|c cs] eqn:Hstrip; [constructor|].
  rewrite <- Hstrip in *. clear Hstrip.
  apply Forall_fmap. eapply Forall_impl; [apply split_words|].
  simpl. intros word [Hne Hlen]. split.
  - intros Hnil. apply Hne.
    rewrite <- (list_ascii_of_string_of_list_ascii word), Hnil. reflexivity.
  - rewrite <- length_list_ascii_of_string, list_ascii_of_string_of_list_ascii. lia.
Qed.

Section Fuel.
Variable draws : nat -> float.
Variable self : WordpieceTokenizer.

Lemma tokenize_word_fuel fuel fuel' token w :
  String.length token < fuel -> String.length token < fuel' ->
  tokenize_word draws fuel self token w = tokenize_word draws fuel' self token w.
Proof.
  intros Hf Hf'. unfold tokenize_word.
  rewrite <- length_list_ascii_of_string in Hf, Hf'.
  rewrite (outer_loop_fuel draws self _ fuel fuel') by lia. reflexivity.
Qed.

Lemma inner_loop_longest chars start end_ w r e w' :
  no_corruption draws ->
  inner_loop draws self chars start end_ w = (r, e, w') ->
  forall e', match r with Some _ => e | None => start end < e' <= end_ ->
             ~ known self (candidate chars start e').
Proof.
  intros Hgood. revert w r e w'.
  induction end_ as [|end' IH]; intros w r e w' H e' He'; simpl in H.
  - inversion H; subst. lia.
  - destruct (start <? S end') eqn:Hlt.
    + apply Nat.ltb_lt in Hlt.
      destruct (bool_decide (is_Some (vocab self !! candidate chars start (S end')))) eqn:Hin.
      * rewrite Hgood in H. inversion H; subst. lia.
      * apply bool_decide_eq_false in Hin.
        destruct (decide (e' = S end')) as [->|Hne]; [exact Hin|].
        eapply IH; [exact H | lia].
    + apply Nat.ltb_ge in Hlt. inversion H; subst. lia.
Qed.
End Fuel.

End TokenizerFacts.

(** ** Facts about the generator *)

Module TargetDistFacts.
Import Py TargetDist F64Facts.
Local Open Scope Z_scope.

Lemma bind_return {A B} (a : A) (k : A -> result B) : Return a ≫= k = k a.
Proof. reflexivity. Qed.

Lemma float_of_int_in_range n :
  Z.abs n < F64.overflow_threshold -> float_of_int n = Return (F64.of_Z n).
Proof. intros H. unfold float_of_int. apply Z.ltb_lt in H. rewrite H. reflexivity. Qed.

Lemma float_of_int_overflow {A} n (k : float -> result A) :
  F64.overflow_threshold <= Z.abs n -> float_of_int n ≫= k = Raise OverflowError.
Proof. intros H. unfold float_of_int. apply Z.ltb_ge in H. rewrite H. reflexivity. Qed.

Lemma range_bounds n x : x ∈ range n -> 0 <= x < n.
Proof.
  unfold range. intros H. apply list_elem_of_fmap in H.
  destruct H as (i & -> & Hi). apply elem_of_seq in Hi. lia.
Qed.

Lemma range_nonpositive n : n <= 0 -> range n = [].
Proof. intros H. unfold range. replace (Z.to_nat n) with 0%nat by lia. reflexivity. Qed.

Lemma range_length n : length (range n) = Z.to_nat n.
Proof. unfold range. rewrite length_fmap, length_seq. reflexivity. Qed.

Lemma range_lookup n k : 0 <= k < n -> range n !! Z.to_nat k = Some k.
Proof.
  intros H. unfold range. rewrite list_lookup_fmap.
  rewrite lookup_seq_lt by lia. simpl. f_equal. lia.
Qed.

(** A comprehension whose element never raises is a [map]. *)
Lemma mapM_returns {A B} (f : A -> result B) (g : A -> B) (l : list A) :
  Forall (fun x => f x = Return (g x)) l -> mapM f l = Return (g <$> l).
Proof.
  induction 1 as [|x l Hx _ IH]; [reflexivity|].
  simpl. rewrite Hx. simpl. rewrite IH. reflexivity.
Qed.

(** A comprehension raises what its first element raises. *)
Lemma mapM_raises {A B} (f : A -> result B) (e : exception) (x : A) (l : list A) :
  f x = Raise e -> mapM f (x :: l) = Raise e.
Proof. intros Hx. simpl. rewrite Hx. reflexivity. Qed.

Section WithScipy.
Variable truncnorm_cdf : float -> float -> float -> float -> float -> float.

Lemma supports_return radius low num_bins :
  num_bins < F64.overflow_threshold ->
  mapM (support radius low) (range num_bins) = Return (centers radius low num_bins).
Proof.
  intros Hn. apply mapM_returns. apply Forall_forall. intros x Hx.
  apply range_bounds in Hx. unfold support.
  rewrite (float_of_int_in_range x) by lia. reflexivity.
Qed.

Lemma trunc_norm_prob_return mean low high radius center :
  F64.is_zero radius = false ->
  trunc_norm_prob truncnorm_cdf mean low high radius center
  = Return (mass truncnorm_cdf mean low high radius center).
Proof. intros Hr. unfold trunc_norm_prob, truediv. rewrite Hr. reflexivity. Qed.

Lemma trunc_norm_prob_raise mean low high radius center :
  F64.is_zero radius = true ->
  trunc_norm_prob truncnorm_cdf mean low high radius center
  = Raise ZeroDivisionError.
Proof. intros Hr. unfold trunc_norm_prob, truediv. rewrite Hr. reflexivity. Qed.

Lemma generate_target_dist_cases mean num_bins low high :
  let radius := radius_value num_bins low high in
  generate_target_dist truncnorm_cdf mean num_bins low high =
  if F64.overflow_threshold <=? Z.abs num_bins then Raise OverflowError
  else if num_bins =? 0 then Raise ZeroDivisionError
  else if num_bins <? 0 then Return ([], [])
  else if F64.is_zero radius then Raise ZeroDivisionError
  else Return (centers radius low num_bins,
               mass truncnorm_cdf mean low high radius <$> centers radius low num_bins).
Proof.
  intros radius. unfold generate_target_dist, radius_of, float_of_int.
  rewrite Z.ltb_antisym.
  destruct (F64.overflow_threshold <=? Z.abs num_bins) eqn:Hover; [reflexivity|].
  apply Z.leb_gt in Hover. cbn [negb].
  destruct (num_bins =? 0) eqn:Hzero.
  { apply Z.eqb_eq in Hzero. subst num_bins. reflexivity. }
  apply Z.eqb_neq in Hzero.
  cbn [mbind result_bind]. unfold truediv at 1.
  rewrite (of_Z_not_zero _ Hzero).
  fold (radius_value num_bins low high). fold radius.
  rewrite bind_return, supports_return, bind_return by lia.
  destruct (num_bins <? 0) eqn:Hneg.
  { apply Z.ltb_lt in Hneg. unfold centers. rewrite range_nonpositive by lia. reflexivity. }
  apply Z.ltb_ge in Hneg.
  destruct (F64.is_zero radius) eqn:Hr.
  - unfold centers, range.
    destruct (Z.to_nat num_bins) as [|n] eqn:Hn; [lia|].
    simpl seq. rewrite !fmap_cons.
    rewrite (mapM_raises _ ZeroDivisionError); [reflexivity|].
    apply trunc_norm_prob_raise. exact Hr.
  - rewrite (mapM_returns _ (mass truncnorm_cdf mean low high radius)); [reflexivity|].
    apply Forall_forall. intros c _. apply trunc_norm_prob_return. exact Hr.
Qed.
End WithScipy.
Lemma radius_value_equal_bounds num_bins low high :
  F64.is_finite low = true -> F64.eqb low high = true -> num_bins <> 0 ->
  F64.is_zero (radius_value num_bins low high) = true.
Proof.
  intros Hfin Heq Hn. unfold radius_value.
  apply div_zero_l; [|apply of_Z_proper; exact Hn].
  apply mul_zero_r; [reflexivity|]. apply eqb_finite_eq; assumption.
Qed.

End TargetDistFacts.

(** ** Facts about the cache *)

Module MemoFacts.
Import Py TargetDist Memo F64Facts.

Lemma arg_eqb_refl x : F64.is_nan x = false -> arg_eqb x x = true.
Proof.
  intros Hnan. unfold arg_eqb, F64.eqb, SFeqb.
  rewrite compare_refl by exact Hnan. reflexivity.
Qed.

Lemma arg_eqb_not_nan x y : arg_eqb x y = true -> F64.is_nan x = false.
Proof. destruct x; [reflexivity..|discriminate|reflexivity]. Qed.

Lemma key_eqb_refl mean num_bins low high :
  F64.is_nan mean = false -> F64.is_nan low = false ->
  F64.is_nan high = false ->
  key_eqb (mean, num_bins, low, high) (mean, num_bins, low, high) = true.
Proof.
  intros Hm Hl Hh. simpl.
  rewrite !arg_eqb_refl, Z.eqb_refl by assumption. reflexivity.
Qed.

Lemma cache_get_stored k v c :
  key_eqb k k = true ->
  cache_get k c = None -> cache_get k (c ++ [(k, v)]) = Some v.
Proof.
  intros Hk. unfold cache_get. induction c as [|entry c IH]; simpl.
  - rewrite Hk. reflexivity.
  - destruct (key_eqb (fst entry) k); [discriminate | exact IH].
Qed.

Section Decorator.
Context {W : Type}.
Variable f : key -> W -> result value * W.

Lemma lru_cache_hit c k v w :
  cache_get k c = Some v -> lru_cache f c k w = (Return v, c, w).
Proof. intros H. unfold lru_cache. rewrite H. reflexivity. Qed.

Lemma lru_cache_miss c k w :
  cache_get k c = None ->
  lru_cache f c k w
  = match f k w with
    | (Return v, w') => (Return v, c ++ [(k, v)], w')
    | (Raise e, w') => (Raise e, c, w')
    end.
Proof. intros H. unfold lru_cache. rewrite H. reflexivity. Qed.

Lemma lru_cache_stored c k w v c' w' :
  key_eqb k k = true ->
  lru_cache f c k w = (Return v, c', w') -> cache_get k c' = Some v.
Proof.
  intros Hk. unfold lru_cache.
  destruct (cache_get k c) as [v0|] eqn:Hget.
  - intros H; inversion H; subst. exact Hget.
  - destruct (f k w) as [[v0|e] w0]; intros H; inversion H; subst.
    apply cache_get_stored; assumption.
Qed.

Lemma lru_cache_again c k w v c' w' :
  key_eqb k k = true ->
  lru_cache f c k w = (Return v, c', w') ->
  forall w'', lru_cache f c' k w'' = (Return v, c', w'').
Proof.
  intros Hk H w''. apply lru_cache_hit.
  apply (lru_cache_stored _ _ _ _ _ _ Hk H).
Qed.

End Decorator.

Lemma memo_call_hit f m k v :
  cache_get k (cache m) = Some v -> memo_call f m k = (Return v, m).
Proof.
  intros H. unfold memo_call. rewrite (lru_cache_hit _ _ _ _ _ H).
  destruct m; reflexivity.
Qed.

Lemma memo_call_miss f m k :
  cache_get k (cache m) = None ->
  memo_call f m k
  = match f k with
    | Return v =>
        (Return v,
         {| cache := cache m ++ [(k, v)]; computations := S (computations m) |})
    | Raise e =>
        (Raise e, {| cache := cache m; computations := S (computations m) |})
    end.
Proof.
  intros H. unfold memo_call. rewrite (lru_cache_miss _ _ _ _ H).
  unfold counting. destruct (f k); reflexivity.
Qed.

Lemma memo_call_stored f m k v m' :
  key_eqb k k = true ->
  memo_call f m k = (Return v, m') -> cache_get k (cache m') = Some v.
Proof.
  intros Hk. unfold memo_call.
  destruct (lru_cache (counting f) (cache m) k (computations m))
    as [[r c] n] eqn:Hcall.
  intros H; inversion H; subst. simpl.
  apply (lru_cache_stored _ _ _ _ _ _ _ Hk Hcall).
Qed.

End MemoFacts.

(** ** Facts about whitespace and the pieces of a word *)

Module MoreTokenizerFacts.
Import Tokenizer TokenizerFacts Cleaning.

Lemma lstrip_split cs : exists ws,
  cs = ws ++ lstrip cs /\ Forall (fun c => isspace c = true) ws.
Proof.
  induction cs as [|c cs (ws & Hcs & Hws)]; simpl.
  - exists []. split; [reflexivity | constructor].
  - destruct (isspace c) eqn:Hc.
    + exists (c :: ws). split; [simpl; congruence | constructor; assumption].
    + exists []. split; [reflexivity | constructor].
Qed.

Lemma split_spaces ws cur :
  Forall (fun c => isspace c = true) ws ->
  split cur ws = match cur with [] => [] | _ => [cur] end.
Proof.
  induction 1 as [|c ws Hc _ IH] in cur |- *; simpl; [reflexivity|].
  rewrite Hc. destruct cur; rewrite IH; reflexivity.
Qed.

Lemma split_leading ws cs :
  Forall (fun c => isspace c = true) ws -> split [] (ws ++ cs) = split [] cs.
Proof.
  induction 1 as [|c ws Hc _ IH]; simpl; [reflexivity|]. rewrite Hc. exact IH.
Qed.

Lemma split_trailing ws cs cur :
  Forall (fun c => isspace c = true) ws -> split cur (cs ++ ws) = split cur cs.
Proof.
  intros Hws. revert cur. induction cs as [|c cs IH]; intros cur; simpl.
  - apply split_spaces. exact Hws.
  - destruct (isspace c); [destruct cur|]; rewrite ?IH; reflexivity.
Qed.

(** Stripping a text first changes nothing of its words. *)
Lemma split_strip cs : split [] (strip cs) = split [] cs.
Proof.
  unfold strip.
  destruct (lstrip_split cs) as (ws & Hcs & Hws).
  destruct (lstrip_split (rev (lstrip cs))) as (ws' & Hcs' & Hws').
  rewrite Hcs at 2. rewrite split_leading by exact Hws.
  apply (f_equal (@rev ascii)) in Hcs'. rewrite rev_involutive, rev_app_distr in Hcs'.
  rewrite Hcs' at 2. rewrite split_trailing; [reflexivity|].
  apply Forall_rev. exact Hws'.
Qed.

Lemma whitespace_tokenize_split text :
  whitespace_tokenize text
  = string_of_list_ascii <$> split [] (list_ascii_of_string text).
Proof.
  unfold whitespace_tokenize. rewrite <- (split_strip (list_ascii_of_string text)).
  destruct (strip (list_ascii_of_string text)); reflexivity.
Qed.

Lemma split_spec cs : forall cur,
  spaceless cur ->
  Forall (fun word => word <> [] /\ spaceless word) (split cur cs)
  /\ concat (split cur cs) = cur ++ filter (fun c => isspace c = false) cs.
Proof.
  induction cs as [|c cs IH]; intros cur Hcur; simpl.
  - rewrite app_nil_r. destruct cur as [|c' cur'];
      [split; [constructor | reflexivity]|].
    split; [constructor; [split; [discriminate | exact Hcur] | constructor]|].
    simpl. rewrite app_nil_r. reflexivity.
  - destruct (isspace c) eqn:Hc.
    + rewrite filter_cons_False by congruence.
      destruct (IH [] (List.Forall_nil _)) as [Hall Hcat].
      destruct cur as [|c' cur'].
      * split; [exact Hall | exact Hcat].
      * split; [constructor; [split; [discriminate | exact Hcur] | exact Hall]|].
        simpl. rewrite Hcat. reflexivity.
    + rewrite filter_cons_True by exact Hc.
      destruct (IH (cur ++ [c])) as [Hall Hcat].
      { apply Forall_app. split; [exact Hcur | repeat constructor; exact Hc]. }
      split; [exact Hall|]. rewrite Hcat, <- app_assoc. reflexivity.
Qed.

End MoreTokenizerFacts.

Module MoreLoopFacts.
Import Tokenizer TokenizerFacts Cleaning MoreTokenizerFacts.

Section Loops.
Variable draws : nat -> float.
Variable self : WordpieceTokenizer.

(** The accumulator of the loop over the words only collects. *)
Lemma tokenize_words_acc fuel tokens acc w :
  tokenize_words draws fuel self tokens acc w
  = (fun r => (acc ++ fst r, snd r))
      <$> tokenize_words draws fuel self tokens [] w.
Proof.
  revert acc w. induction tokens as [|token tokens IH]; intros acc w; simpl.
  - rewrite app_nil_r. reflexivity.
  - destruct (tokenize_word draws fuel self token w) as [[new w1]|]; [|reflexivity].
    rewrite (IH (acc ++ new)), (IH ([] ++ new)).
    destruct (tokenize_words draws fuel self tokens [] w1) as [[out w2]|];
      [|reflexivity].
    simpl. rewrite app_assoc. reflexivity.
Qed.

Lemma tokenize_words_all (P : string -> Prop) fuel tokens acc w out w' :
  (forall token w1 new w2,
      tokenize_word draws fuel self token w1 = Some (new, w2) -> Forall P new) ->
  Forall P acc ->
  tokenize_words draws fuel self tokens acc w = Some (out, w') ->
  Forall P out.
Proof.
  intros Hword. revert acc w. induction tokens as [|token tokens IH];
    intros acc w Hacc Hrun; simpl in Hrun.
  - inversion Hrun; subst. exact Hacc.
  - destruct (tokenize_word draws fuel self token w) as [[new w1]|] eqn:Hw;
      [|discriminate].
    apply (IH _ _ (proj2 (Forall_app _ _ _) (conj Hacc (Hword _ _ _ _ Hw))) Hrun).
Qed.

Variable chars : list ascii.

(** What the pieces accepted so far look like. *)
Lemma visits_pieces w0 start sub_tokens w :
  visits draws self chars w0 start sub_tokens w ->
  Forall (known self) sub_tokens
  /\ length sub_tokens <= start
  /\ match sub_tokens with
     | [] => True
     | first :: rest =>
         (exists e, 0 < e <= length chars
                    /\ first = string_of_list_ascii (take e chars))
         /\ Forall (fun piece => exists body, piece = "##" +:+ body) rest
     end.
Proof.
  intros Hv. induction Hv as [|start sub_tokens w c e w' Hv IH Hlt Hin].
  - repeat split; [constructor | simpl; lia].
  - destruct IH as (Hknown & Hlen & Hshape).
    pose proof (visits_detokenize _ _ _ _ _ _ _ Hv) as [_ Hzero].
    apply inner_loop_spec in Hin. destruct Hin as (_ & _ & He & Hc & Hk & _).
    split; [|split].
    + apply Forall_app. split; [exact Hknown | repeat constructor; exact Hk].
    + rewrite length_app. simpl. lia.
    + destruct sub_tokens as [|first rest]; simpl.
      * assert (start = 0) as -> by (apply Hzero; reflexivity).
        split; [|constructor]. exists e. split; [lia|].
        subst c. unfold candidate, slice. simpl. rewrite Nat.sub_0_r. reflexivity.
      * destruct Hshape as [Hfirst Hrest]. split; [exact Hfirst|].
        apply Forall_app. split; [exact Hrest|]. repeat constructor.
        subst c. unfold candidate.
        destruct start as [|start]; [|eexists; reflexivity].
        assert (first :: rest = []) by (apply Hzero; reflexivity). discriminate.
Qed.

(** The candidates tried up to a cursor. *)
Lemma visits_work w0 start sub_tokens w :
  visits draws self chars w0 start sub_tokens w ->
  exists tried,
    queried w = queried w0 ++ tried
    /\ 2 * length tried + (length chars - start) * (length chars - start + 1)
       <= length chars * (length chars + 1).
Proof.
  intros Hv. induction Hv as [|start sub_tokens w c e w' Hv IH Hlt Hin].
  - exists []. rewrite app_nil_r, Nat.sub_0_r. split; [reflexivity | simpl; lia].
  - destruct IH as (tried & Hq & Hwork).
    apply inner_loop_spec in Hin. destruct Hin as (Hq' & _ & He & _).
    eexists (tried ++ _). rewrite app_assoc, <- Hq. split; [exact Hq'|].
    rewrite length_app, length_fmap. unfold tried_ends.
    rewrite length_rev, length_seq.
    set (n := length chars) in *.
    assert (Ha : exists a, n = start + a) by (exists (n - start); lia).
    destruct Ha as [a Ha].
    assert (Hb : exists b, n = e + b) by (exists (n - e); lia).
    destruct Hb as [b Hb].
    replace (n - start) with a in Hwork by lia.
    replace (n - e) with b by lia.
    replace (S n - e) with (S b) by lia.
    assert (b < a) by lia. nia.
Qed.

Lemma inner_loop_always_corrupted start end_ w :
  always_corrupted draws ->
  fst (fst (inner_loop draws self chars start end_ w)) = None.
Proof.
  intros Hbad. revert w. induction end_ as [|end' IH]; intros w; simpl;
    [reflexivity|].
  destruct (start <? S end'); [|reflexivity].
  destruct (bool_decide _); [rewrite Hbad|]; apply IH.
Qed.

Lemma outer_loop_known fuel start sub_tokens w is_bad out w' :
  Forall (known self) sub_tokens ->
  outer_loop draws fuel self chars start sub_tokens w = Some (is_bad, out, w') ->
  Forall (known self) out.
Proof.
  revert start sub_tokens w. induction fuel as [|fuel IH];
    intros start sub_tokens w Hsubs Hrun; [discriminate|].
  rewrite outer_loop_unfold in Hrun.
  destruct (start <? length chars); [|inversion Hrun; subst; exact Hsubs].
  destruct (inner_loop draws self chars start (length chars) w)
    as [[[c|] e] w1] eqn:Hin; [|inversion Hrun; subst; exact Hsubs].
  apply inner_loop_spec in Hin. destruct Hin as (_ & _ & _ & _ & Hk & _).
  apply (IH e (sub_tokens ++ [c]) w1); [|exact Hrun].
  apply Forall_app. split; [exact Hsubs | repeat constructor; exact Hk].
Qed.

End Loops.

Lemma tokenize_word_known draws fuel self token w new w' :
  tokenize_word draws fuel self token w = Some (new, w') ->
  Forall (fun piece => piece = unk_token self \/ known self piece) new.
Proof.
  unfold tokenize_word. destruct (_ >? _)%Z.
  { intros H; inversion H; subst. repeat constructor. }
  destruct (outer_loop draws fuel self (list_ascii_of_string token) 0 [] w)
    as [[[is_bad sub_tokens] w1]|] eqn:Hrun; [|discriminate].
  intros H; inversion H; subst. destruct is_bad; [repeat constructor|].
  eapply Forall_impl;
    [apply (outer_loop_known draws self _ _ _ _ _ _ _ _ (List.Forall_nil _) Hrun)|].
  simpl. auto.
Qed.
End MoreLoopFacts.

(** ** Facts about repeated calls of the cached generator *)

Module MoreMemoFacts.
Import Py TargetDist Memo Calls F64Facts MemoFacts.

Lemma arg_eqb_same x y : arg_eqb x y = true -> same_arg x y.
Proof.
  unfold arg_eqb, same_arg, F64.eqb, SFeqb. intros H.
  destruct x as [sx|sx| |sx mx ex], y as [sy|sy| |sy my ey];
    simpl in H; try discriminate;
    try (left; split; reflexivity);
    try (destruct sx, sy; (discriminate || (right; reflexivity)));
    try (destruct sx; discriminate); try (destruct sy; discriminate).
  right.
  assert (Heq : ex = ey /\ mx = my /\ sx = sy).
  { destruct sx, sy; try discriminate;
      destruct (ex ?= ey)%Z eqn:He; try discriminate;
      destruct (Pos.compare_cont Eq mx my) eqn:Hm; try discriminate;
      apply Z.compare_eq in He; apply Pos.compare_eq in Hm; auto. }
  destruct Heq as (-> & -> & ->). reflexivity.
Qed.

Lemma arg_eqb_trans_l x y z : arg_eqb x y = true -> arg_eqb z x = arg_eqb z y.
Proof.
  intros H. destruct (arg_eqb_same _ _ H) as [[Hx Hy]| ->]; [|reflexivity].
  destruct x, y; try discriminate. destruct z; reflexivity.
Qed.

Lemma key_eqb_trans_l k k' k0 : key_eqb k k' = true -> key_eqb k0 k = key_eqb k0 k'.
Proof.
  destruct k as [[[mean nb] low] high], k' as [[[mean' nb'] low'] high'],
    k0 as [[[mean0 nb0] low0] high0]. simpl. intros H.
  apply andb_true_iff in H. destruct H as [H Hh].
  apply andb_true_iff in H. destruct H as [H Hl].
  apply andb_true_iff in H. destruct H as [Hm Hn].
  apply Z.eqb_eq in Hn. subst nb'.
  rewrite (arg_eqb_trans_l _ _ mean0 Hm), (arg_eqb_trans_l _ _ low0 Hl),
    (arg_eqb_trans_l _ _ high0 Hh). reflexivity.
Qed.

Lemma cache_get_equal_keys k k' c :
  key_eqb k k' = true -> cache_get k' c = cache_get k c.
Proof.
  intros H. unfold cache_get. f_equal.
  induction c as [|entry c IH]; simpl; [reflexivity|].
  rewrite <- (key_eqb_trans_l k k' (fst entry) H), IH. reflexivity.
Qed.

Lemma cache_get_app k c c' v :
  cache_get k c = Some v -> cache_get k (c ++ c') = Some v.
Proof.
  unfold cache_get. induction c as [|entry c IH]; simpl; [discriminate|].
  destruct (key_eqb (fst entry) k); [auto | exact IH].
Qed.

Section Calls.
Variable f : key -> result value.

Lemma memo_call_keeps m k v k' :
  cache_get k (cache m) = Some v ->
  cache_get k (cache (snd (memo_call f m k'))) = Some v.
Proof.
  intros H. destruct (cache_get k' (cache m)) as [v'|] eqn:Hget.
  - rewrite (memo_call_hit _ _ _ _ Hget). exact H.
  - rewrite (memo_call_miss _ _ _ Hget).
    destruct (f k'); simpl; [apply cache_get_app|]; exact H.
Qed.

Lemma after_calls_keeps ks : forall m k v,
  cache_get k (cache m) = Some v ->
  cache_get k (cache (after_calls f m ks)) = Some v.
Proof.
  induction ks as [|k' ks IH]; intros m k v H; [exact H|].
  simpl. apply IH. apply memo_call_keeps. exact H.
Qed.

Lemma memo_call_sound m k : sound f m -> sound f (snd (memo_call f m k)).
Proof.
  intros [Hall Hlen]. destruct (cache_get k (cache m)) as [v'|] eqn:Hget.
  - rewrite (memo_call_hit _ _ _ _ Hget). split; assumption.
  - rewrite (memo_call_miss _ _ _ Hget).
    destruct (f k) as [v|e] eqn:Hf; simpl; split; simpl.
    + apply Forall_app. split; [exact Hall | repeat constructor; exact Hf].
    + rewrite length_app. simpl. lia.
    + exact Hall.
    + lia.
Qed.

Lemma after_calls_sound ks : forall m, sound f m -> sound f (after_calls f m ks).
Proof.
  induction ks as [|k ks IH]; intros m H; [exact H|].
  simpl. apply IH. apply memo_call_sound. exact H.
Qed.

(** A call answers what [f] answers on the key given or on a stored key
    that is [==] to it. *)
Lemma memo_call_answer m k :
  sound f m ->
  exists k0, (k0 = k \/ key_eqb k0 k = true) /\ fst (memo_call f m k) = f k0.
Proof.
  intros [Hall _]. destruct (cache_get k (cache m)) as [v|] eqn:Hget.
  - rewrite (memo_call_hit _ _ _ _ Hget). unfold cache_get in Hget.
    destruct (List.find _ (cache m)) as [[k0 v0]|] eqn:Hfind; [|discriminate].
    simpl in Hget. inversion Hget; subst v0.
    apply List.find_some in Hfind. destruct Hfind as [Hin Heq].
    exists k0. split; [right; exact Heq|].
    rewrite List.Forall_forall in Hall. symmetry. apply (Hall _ Hin).
  - rewrite (memo_call_miss _ _ _ Hget).
    exists k. split; [left; reflexivity|]. destruct (f k); reflexivity.
Qed.

End Calls.
End MoreMemoFacts.

(** ** Facts about cleaning and batches *)

Module CleaningFacts.
Import Tokenizer TokenizerFacts Cleaning MoreTokenizerFacts.

Lemma list_ascii_of_string_app (s1 s2 : string) :
  list_ascii_of_string (s1 +:+ s2)
  = list_ascii_of_string s1 ++ list_ascii_of_string s2.
Proof.
  induction s1 as [|c s1 IH]; [reflexivity|].
  change (c :: list_ascii_of_string (s1 +:+ s2)
          = c :: (list_ascii_of_string s1 ++ list_ascii_of_string s2)).
  rewrite IH. reflexivity.
Qed.

Lemma split_word wd : forall cur cs,
  spaceless wd -> split cur (wd ++ cs) = split (cur ++ wd) cs.
Proof.
  induction wd as [|c wd IH]; intros cur cs Hwd.
  - rewrite app_nil_r. reflexivity.
  - inversion Hwd as [|? ? Hc Hwd']; subst. simpl. rewrite Hc.
    rewrite IH by exact Hwd'. rewrite <- app_assoc. reflexivity.
Qed.

Lemma split_space cur cs :
  cur <> [] -> split cur (" "%char :: cs) = cur :: split [] cs.
Proof. intros Hne. destruct cur; [congruence | reflexivity]. Qed.

(** Splitting the words joined by single spaces gives the words back. *)
Lemma split_join words :
  Forall (fun word => word <> [] /\ spaceless word) words ->
  split [] (list_ascii_of_string
              (String.concat " " (string_of_list_ascii <$> words)))
  = words.
Proof.
  induction 1 as [|word words [Hne Hsp] Hall IH]; [reflexivity|].
  destruct words as [|word' words].
  - simpl. rewrite list_ascii_of_string_of_list_ascii.
    rewrite <- (app_nil_r word) at 1. rewrite split_word by exact Hsp.
    simpl. destruct word; [congruence | reflexivity].
  - change (String.concat " " (string_of_list_ascii <$> word :: word' :: words))
      with (string_of_list_ascii word
            +:+ " " +:+ String.concat " " (string_of_list_ascii <$> word' :: words)).
    rewrite !list_ascii_of_string_app, list_ascii_of_string_of_list_ascii.
    rewrite split_word by exact Hsp.
    change (list_ascii_of_string " ") with [" "%char].
    change ([] ++ word) with word.
    change ([" "%char] ++ ?l) with (" "%char :: l).
    rewrite split_space by exact Hne. rewrite IH. reflexivity.
Qed.

End CleaningFacts.

Module BatchingFacts.
Import Batching.

Section Batches.
Context {A : Type}.
Variable BATCH_SIZE : nat.
Variable rows : list A.
Variable n : nat.

Lemma batches_prefix k :
  concat (batch_at BATCH_SIZE rows n <$> ((fun i => i * BATCH_SIZE) <$> seq 0 k))
  = take (Nat.min (k * BATCH_SIZE) n) rows.
Proof.
  induction k as [|k IH]; [reflexivity|].
  rewrite seq_S, !fmap_app, concat_app, IH. simpl. rewrite app_nil_r.
  unfold batch_at, rows_slice.
  destruct (le_lt_dec (k * BATCH_SIZE) n) as [Hle|Hgt].
  - rewrite (Nat.min_l (k * BATCH_SIZE) n) by exact Hle.
    rewrite take_take_drop. f_equal. lia.
  - rewrite (Nat.min_r (k * BATCH_SIZE) n) by lia.
    replace (Nat.min (k * BATCH_SIZE + BATCH_SIZE) n - k * BATCH_SIZE) with 0 by lia.
    rewrite take_0, app_nil_r. f_equal. lia.
Qed.

Lemma range_by_length :
  0 < BATCH_SIZE ->
  length (range_by n BATCH_SIZE) * BATCH_SIZE >= n
  /\ (forall start, start ∈ range_by n BATCH_SIZE -> start < n).
Proof.
  intros Hpos. unfold range_by.
  destruct (0 <? n) eqn:Hn.
  - apply Nat.ltb_lt in Hn.
    pose proof (Nat.mul_succ_div_gt (n - 1) BATCH_SIZE ltac:(lia)) as Hgt.
    pose proof (Nat.Div0.mul_div_le (n - 1) BATCH_SIZE) as Hle.
    rewrite length_fmap, length_seq. split; [nia|].
    intros start Hin. apply list_elem_of_fmap in Hin.
    destruct Hin as (i & -> & Hi). apply elem_of_seq in Hi. nia.
  - apply Nat.ltb_ge in Hn. split; [simpl; lia|].
    intros start Hin. simpl in Hin. inversion Hin.
Qed.

End Batches.

Section Train.
Variable ACCUM_FOR : nat.
Hypothesis ACCUM_FOR_positive : 0 < ACCUM_FOR.
Variable opt0 : optimizer.

Lemma turn_counted state start :
  counted ACCUM_FOR opt0 state -> counted ACCUM_FOR opt0 (turn ACCUM_FOR state start).
Proof.
  destruct state as [iter opt]. unfold counted, turn. intros [Hs Hu].
  pose proof (Nat.div_mod_eq iter ACCUM_FOR) as Hi.
  pose proof (Nat.div_mod_eq (iter + 1) ACCUM_FOR) as Hi1.
  pose proof (Nat.mod_upper_bound iter ACCUM_FOR ltac:(lia)) as Hb.
  pose proof (Nat.mod_upper_bound (iter + 1) ACCUM_FOR ltac:(lia)) as Hb1.
  destruct ((iter + 1) mod ACCUM_FOR =? 0) eqn:Hz.
  - apply Nat.eqb_eq in Hz. simpl. rewrite Hs, Hz.
    assert (Hq : (iter + 1) / ACCUM_FOR = S (iter / ACCUM_FOR)) by nia.
    split; [lia|].
    destruct (iter + 1 <? ACCUM_FOR) eqn:Hlt; [|reflexivity].
    apply Nat.ltb_lt in Hlt. rewrite Nat.div_small in Hq by lia. lia.
  - apply Nat.eqb_neq in Hz. simpl. rewrite Hs, Hu.
    assert (Hq : (iter + 1) / ACCUM_FOR = iter / ACCUM_FOR) by nia.
    split; [lia|].
    destruct (Nat.ltb_spec iter ACCUM_FOR) as [Hlt|Hlt],
      (Nat.ltb_spec (iter + 1) ACCUM_FOR) as [Hlt1|Hlt1]; try lia.
    + rewrite (Nat.mod_small iter) in Hi by lia.
      assert (iter + 1 = ACCUM_FOR) by lia.
      rewrite H, Nat.Div0.mod_same in Hz. congruence.
Qed.

Lemma turns_counted starts : forall state,
  counted ACCUM_FOR opt0 state ->
  counted ACCUM_FOR opt0 (fold_left (turn ACCUM_FOR) starts state)
  /\ fst (fold_left (turn ACCUM_FOR) starts state) = fst state + length starts.
Proof.
  induction starts as [|start starts IH]; intros state H; simpl.
  - split; [exact H | lia].
  - destruct (IH _ (turn_counted state start H)) as [Hc Hn].
    split; [exact Hc|]. rewrite Hn. destruct state as [iter opt].
    unfold turn. destruct (_ =? 0); simpl; lia.
Qed.

End Train.
End BatchingFacts.

(** ** The claims *)

Import Py TargetDist Tokenizer Memo.
Import F64Facts TokenizerFacts TargetDistFacts MemoFacts.

(** *** The generator *)

(** C1, the claim as stated fails: [num_bins = -1] is not refused. The
    range is empty, no probability is computed, and the call returns a
    pair of empty sequences. *)
Lemma negative_num_bins_is_accepted :
  (-1 <= 0)%Z
  /\ generate_target_dist point_mass_cdf F64.half (-1) F64.zero F64.one
     = Return ([], []).
Proof. split; [lia | reflexivity]. Qed.

(** C1, as the code has it: [generate_target_dist] checks none of its
    arguments and has no error of its own. What it raises is what the
    arithmetic raises: [OverflowError] when [num_bins] is too large in
    magnitude to convert to a float, [ZeroDivisionError] when [num_bins]
    is 0, and [ZeroDivisionError] again when [num_bins] is positive and
    the radius is a zero, as it is for finite [low == high]. In every
    other case it returns: the empty pair for a negative [num_bins], and
    [num_bins] centers with their masses otherwise, [low > high]
    included. *)
Theorem generate_target_dist_outcome cdf mean num_bins low high :
  let radius := radius_value num_bins low high in
  generate_target_dist cdf mean num_bins low high
  = (if (F64.overflow_threshold <=? Z.abs num_bins)%Z then Raise OverflowError
     else if (num_bins =? 0)%Z then Raise ZeroDivisionError
     else if (num_bins <? 0)%Z then Return ([], [])
     else if F64.is_zero radius then Raise ZeroDivisionError
     else Return (centers radius low num_bins,
                  mass cdf mean low high radius
                    <$> centers radius low num_bins))
  /\ ((0 < num_bins < F64.overflow_threshold)%Z ->
      F64.is_finite low = true -> F64.eqb low high = true ->
      generate_target_dist cdf mean num_bins low high
      = Raise ZeroDivisionError).
Proof.
  intros radius. split; [apply generate_target_dist_cases|].
  intros Hn Hfin Heq. rewrite generate_target_dist_cases.
  destruct (_ <=? _)%Z eqn:Hover; [apply Z.leb_le in Hover; lia|].
  destruct (num_bins =? 0)%Z eqn:Hz; [reflexivity|].
  destruct (num_bins <? 0)%Z eqn:Hneg; [apply Z.ltb_lt in Hneg; lia|].
  rewrite radius_value_equal_bounds by (assumption || lia). reflexivity.
Qed.

Lemma generate_target_dist_outcome_witness :
  generate_target_dist point_mass_cdf F64.half 4 F64.one F64.one
  = Raise ZeroDivisionError.
Proof.
  apply (generate_target_dist_outcome point_mass_cdf F64.half 4 F64.one F64.one).
  - vm_compute. split; reflexivity.
  - reflexivity.
  - reflexivity.
Defined.

(** C7, the claim as stated fails in two ways. With
    [low = 0.0 < high = 5e-324] and [num_bins = 1] the product
    [0.5 * (high - low)] rounds to zero, the radius is [0.0], and the
    first quotient by it in [trunc_norm_prob] raises before anything is
    returned. With [low = 1e16 < high = 1e16 + 2.0], two floats that are
    neighbours, and [num_bins = 4] the radius is 0.25 and the centers
    returned are [1e16, 1e16, 1e16 + 2.0, 1e16 + 2.0]: consecutive
    centers differ by 0.0, 2.0 and 0.0, and never by
    [2 * radius = 0.5]. *)
Lemma centers_raise_or_are_uneven :
  ((0 < 1)%Z /\ F64.ltb F64.zero F64.tiny = true
   /\ radius_of 1 F64.zero F64.tiny = Return F64.zero
   /\ generate_target_dist point_mass_cdf F64.zero 1 F64.zero F64.tiny
      = Raise ZeroDivisionError)
  /\ ((0 < 4)%Z /\ F64.ltb coarse_low coarse_high = true
      /\ radius_of 4 coarse_low coarse_high = Return F64.quarter
      /\ F64.mul F64.two F64.quarter = F64.half
      /\ (exists probs,
            generate_target_dist point_mass_cdf coarse_low 4
              coarse_low coarse_high
            = Return ([coarse_low; coarse_low; coarse_high; coarse_high],
                      probs))
      /\ F64.sub coarse_low coarse_low = F64.zero
      /\ F64.sub coarse_high coarse_low = F64.two
      /\ F64.sub coarse_high coarse_high = F64.zero).
Proof.
  split.
  - split; [lia | repeat split; reflexivity].
  - split; [lia|]. repeat split; try reflexivity.
    eexists. vm_compute. reflexivity.
Qed.

(** C7, as the code has it: for [0 < num_bins] below the conversion's
    overflow and [low < high] whose radius
    [0.5 * (high - low) / num_bins] is not a zero, the generator
    computes that radius and returns exactly [num_bins] centers (and as
    many probabilities), the center of index [x] being
    [x * (2 * radius) + radius + low] with each operation rounded to
    binary64, so that the first is [low + radius] whenever [2 * radius]
    is finite. For [mean=0.5, num_bins=4, low=0.0, high=1.0] the radius
    is 0.125, the centers are 0.125, 0.375, 0.625 and 0.875, and each
    is [2 * radius = 0.25] above the one before it. *)
Theorem bin_centers cdf mean num_bins low high :
  let radius := radius_value num_bins low high in
  (0 < num_bins < F64.overflow_threshold)%Z ->
  F64.ltb low high = true ->
  F64.is_zero radius = false ->
  radius_of num_bins low high = Return radius
  /\ (exists supports probs,
        generate_target_dist cdf mean num_bins low high
        = Return (supports, probs)
        /\ length supports = Z.to_nat num_bins
        /\ length probs = Z.to_nat num_bins
        /\ (forall x, (0 <= x < num_bins)%Z ->
              supports !! Z.to_nat x
              = Some (F64.add
                        (F64.add (F64.mul (F64.of_Z x) (F64.mul F64.two radius))
                           radius)
                        low))
        /\ (F64.is_finite (F64.mul F64.two radius) = true ->
            supports !! 0 = Some (F64.add low radius)))
  /\ radius_of 4 F64.zero F64.one
     = Return (S754_finite false 4503599627370496 (-55))
  /\ (exists probs,
        generate_target_dist cdf F64.half 4 F64.zero F64.one
        = Return (example_centers, probs))
  /\ (forall i center next,
        example_centers !! i = Some center ->
        example_centers !! S i = Some next ->
        F64.sub next center
        = F64.mul F64.two (S754_finite false 4503599627370496 (-55))
        /\ F64.sub next center = F64.quarter).
Proof.
  intros radius Hn Hlt Hr. split; [|split; [|split; [|split]]].
  - unfold radius_of. rewrite float_of_int_in_range by lia.
    rewrite bind_return. unfold truediv.
    rewrite of_Z_not_zero by lia. reflexivity.
  - exists (centers radius low num_bins),
      (mass cdf mean low high radius <$> centers radius low num_bins).
    assert (Hat : forall x, (0 <= x < num_bins)%Z ->
               centers radius low num_bins !! Z.to_nat x
               = Some (center_at radius low x)).
    { intros x Hx. unfold centers. rewrite list_lookup_fmap.
      rewrite range_lookup by exact Hx. reflexivity. }
    split; [|split; [|split; [|split]]].
    + rewrite generate_target_dist_cases. fold radius.
      destruct (_ <=? _)%Z eqn:Hover; [apply Z.leb_le in Hover; lia|].
      destruct (num_bins =? 0)%Z eqn:Hz; [apply Z.eqb_eq in Hz; lia|].
      destruct (num_bins <? 0)%Z eqn:Hneg; [apply Z.ltb_lt in Hneg; lia|].
      rewrite Hr. reflexivity.
    + unfold centers. rewrite length_fmap. apply range_length.
    + unfold centers. rewrite !length_fmap. apply range_length.
    + exact Hat.
    + intros Hfin. change 0 with (Z.to_nat 0).
      rewrite Hat by lia. unfold center_at.
      rewrite zero_mul_add by assumption. rewrite add_comm. reflexivity.
  - reflexivity.
  - eexists. rewrite generate_target_dist_cases. reflexivity.
  - intros i center next Hi Hnext.
    do 3 (destruct i as [|i];
          [inversion Hi; inversion Hnext; subst; split; reflexivity|]).
    destruct i; discriminate.
Qed.

Lemma bin_centers_witness :
  exists probs,
    generate_target_dist point_mass_cdf F64.half 4 F64.zero F64.one
    = Return (example_centers, probs).
Proof.
  apply (bin_centers point_mass_cdf F64.half 4 F64.zero F64.one).
  - vm_compute. split; reflexivity.
  - reflexivity.
  - reflexivity.
Defined.

(** C8 fails for a NaN argument, which is [==] to nothing and so is
    found under no stored key: of two calls with the mean a NaN made for
    each call, both return, the second enters the undecorated function
    again and stores a second entry. *)
Lemma nan_argument_is_recomputed :
  exists v m1 m2,
    cached_generate_target_dist point_mass_cdf empty_memo
      S754_nan 4 F64.zero F64.one = (Return v, m1)
    /\ cached_generate_target_dist point_mass_cdf m1
         S754_nan 4 F64.zero F64.one = (Return v, m2)
    /\ computations m1 = 1 /\ length (cache m1) = 1
    /\ computations m2 = 2 /\ length (cache m2) = 2.
Proof.
  eexists _, _, _. split; [vm_compute; reflexivity|].
  split; [vm_compute; reflexivity|]. repeat split.
Qed.

(** C8 (as amended): when no argument is a NaN and a call of the
    decorated generator returns, the same call made again returns the
    same value out of the cache, and the cache and the count of the
    entries of the undecorated function, which the function keeps
    itself, are left as they were. That the function is not entered
    rests on nothing of [generate_target_dist]: whatever function is
    decorated, and whatever it does to the world when it runs, after a
    call with these arguments that returned, a call with them in any
    world returns the same value and leaves that world and the cache as
    they are. *)
Theorem memoized_call_repeats cdf m mean num_bins low high v m' :
  F64.is_nan mean = false ->
  F64.is_nan low = false ->
  F64.is_nan high = false ->
  cached_generate_target_dist cdf m mean num_bins low high = (Return v, m') ->
  cached_generate_target_dist cdf m' mean num_bins low high = (Return v, m')
  /\ forall (W : Type) (f : key -> W -> result value * W) c w v' c' w',
       lru_cache f c (mean, num_bins, low, high) w = (Return v', c', w') ->
       forall w'',
         lru_cache f c' (mean, num_bins, low, high) w'' = (Return v', c', w'').
Proof.
  intros Hm Hl Hh Hfirst.
  pose proof (key_eqb_refl mean num_bins low high Hm Hl Hh) as Hk. split.
  - unfold cached_generate_target_dist in *. apply memo_call_hit.
    apply (memo_call_stored _ _ _ _ _ Hk Hfirst).
  - intros W f c w v' c' w' Hcall w''.
    apply (lru_cache_again f _ _ _ _ _ _ Hk Hcall).
Qed.

Lemma memoized_call_repeats_witness :
  exists v m',
    cached_generate_target_dist point_mass_cdf empty_memo
      F64.half 4 F64.zero F64.one = (Return v, m')
    /\ cached_generate_target_dist point_mass_cdf m'
         F64.half 4 F64.zero F64.one = (Return v, m')
    /\ computations m' = 1.
Proof.
  eexists _, _. split; [vm_compute; reflexivity|]. split; [|reflexivity].
  apply (memoized_call_repeats point_mass_cdf empty_memo
           F64.half 4 F64.zero F64.one).
  - reflexivity.
  - reflexivity.
  - reflexivity.
  - vm_compute. reflexivity.
Defined.

(** *** The tokenizer *)

(** C2, the claim as stated fails: for the word "ab" and the vocabulary
    {"a", "##b"} three candidates are tried, "ab", "a" and "##b", and two
    values are drawn: "ab" is not in the vocabulary, and the [and] of
    line 154 does not call [random()] for it. *)
Lemma one_draw_per_candidate_fails :
  let w' := {| draws_used := 2; queried := ["ab"; "a"; "##b"] |} in
  tokenize_word always_half 3 (bert ["a"; "##b"]) "ab" initial_world
  = Some (["a"; "##b"], w')
  /\ candidates_tried initial_world w' = 3
  /\ draws_consumed initial_world w' = 2
  /\ draws_consumed initial_world w' <> candidates_tried initial_world w'.
Proof. vm_compute. repeat split; try reflexivity. discriminate. Qed.

(** C2, as the code has it: for every word, one value is drawn per
    candidate tried that is in the vocabulary, and none for a candidate
    that is not: the draws a word consumes are as many as the candidates
    tried that the vocabulary holds, at most the number tried. *)
Theorem one_draw_per_known_candidate draws fuel self token w :
  String.length token < fuel ->
  exists out w' tried,
    tokenize_word draws fuel self token w = Some (out, w')
    /\ queried w' = queried w ++ tried
    /\ candidates_tried w w' = length tried
    /\ draws_consumed w w' = length (filter (known self) tried).
Proof.
  intros Hf.
  assert (Hacc : forall (w' : world) tried,
             queried w' = queried w ++ tried ->
             draws_used w' = draws_used w + length (filter (known self) tried) ->
             queried w' = queried w ++ tried
             /\ candidates_tried w w' = length tried
             /\ draws_consumed w w' = length (filter (known self) tried)).
  { intros w' tried Hq Hd. unfold candidates_tried, draws_consumed.
    rewrite Hq, Hd, length_app. repeat split; lia. }
  unfold tokenize_word.
  destruct (_ >? _)%Z.
  { exists [unk_token self], w, []. split; [reflexivity|].
    apply Hacc; [rewrite app_nil_r; reflexivity | simpl; lia]. }
  rewrite <- length_list_ascii_of_string in Hf.
  destruct (outer_loop_ends draws self _ w fuel Hf)
    as (is_bad & sub_tokens & w' & -> & Hend).
  destruct is_bad.
  - destruct Hend as (start & w1 & e & Hv & _ & Hin).
    apply visits_accounting in Hv. destruct Hv as (tried & Hq & Hd).
    apply inner_loop_spec in Hin. destruct Hin as (Hq' & Hd' & _).
    eexists _, w', (tried ++ _). split; [reflexivity|].
    apply Hacc.
    + rewrite app_assoc, <- Hq. exact Hq'.
    + rewrite filter_app, length_app, Hd', Hd. lia.
  - apply visits_accounting in Hend. destruct Hend as (tried & Hq & Hd).
    eexists _, w', tried. split; [reflexivity|]. apply Hacc; assumption.
Qed.

Lemma one_draw_per_known_candidate_witness :
  exists out w' tried,
    tokenize_word always_half 3 (bert ["a"; "##b"]) "ab" initial_world
    = Some (out, w')
    /\ queried w' = queried initial_world ++ tried
    /\ candidates_tried initial_world w' = length tried
    /\ draws_consumed initial_world w'
       = length (filter (known (bert ["a"; "##b"])) tried).
Proof.
  apply (one_draw_per_known_candidate always_half 3 (bert ["a"; "##b"]) "ab"
           initial_world).
  vm_compute. lia.
Defined.

(** C3: whatever is drawn, at a cursor [start] the candidates are looked
    up in the order [word[start:end]] for [end] from [len(word)] down,
    "##" put before them when [start > 0], down to [start + 1] when none
    is accepted and to the accepted end otherwise, and an accepted
    candidate is the one of its end and is in the vocabulary; when no
    draw corrupts a match the accepted candidate is the longest one in
    the vocabulary. So, with no corruption, "unable" gives ["unable"]
    with {"un", "##able", "unable"} and ["un"; "##able"] with
    {"un", "##able"}. *)
Theorem greedy_longest_match_first draws :
  (forall self chars start w r e w',
      inner_loop draws self chars start (length chars) w = (r, e, w') ->
      let lo := match r with Some _ => e | None => S start end in
      queried w' = queried w
                   ++ (candidate chars start <$> tried_ends lo (length chars))
      /\ (forall end_,
            candidate chars start end_
            = if 0 <? start
              then "##" +:+ string_of_list_ascii (slice chars start end_)
              else string_of_list_ascii (slice chars start end_))
      /\ match r with
         | Some cur_substr =>
             start < e <= length chars
             /\ cur_substr = candidate chars start e
             /\ known self cur_substr
         | None => e = Nat.min start (length chars)
         end
      /\ (no_corruption draws ->
          forall e', lo <= e' <= length chars ->
                     known self (candidate chars start e') ->
                     r = Some (candidate chars start e') /\ e = e'))
  /\ (no_corruption draws ->
      forall fuel w, 6 < fuel ->
        fst <$> tokenize_word draws fuel (bert ["un"; "##able"; "unable"])
                  "unable" w
        = Some ["unable"])
  /\ (no_corruption draws ->
      forall fuel w, 6 < fuel ->
        fst <$> tokenize_word draws fuel (bert ["un"; "##able"]) "unable" w
        = Some ["un"; "##able"]).
Proof.
  split; [|split].
  - intros self chars start w r e w' Hin lo.
    pose proof (fun Hgood =>
                  inner_loop_longest draws self chars start _ w r e w' Hgood Hin)
      as Hlongest.
    apply inner_loop_spec in Hin. destruct Hin as (Hq & _ & Hr).
    split; [exact Hq|]. split; [reflexivity|]. split.
    + destruct r as [c|]; [|exact Hr].
      destruct Hr as (He & Hc & Hknown & _). repeat split; auto; lia.
    + intros Hgood e' He' Hknown. subst lo. destruct r as [c|].
      * destruct Hr as (He & -> & _).
        destruct (decide (e' = e)) as [->|Hne]; [split; reflexivity|].
        exfalso. apply (Hlongest Hgood e'); [lia | exact Hknown].
      * exfalso. apply (Hlongest Hgood e'); [lia | exact Hknown].
  - intros Hgood fuel w Hf.
    rewrite (tokenize_word_ext draws always_half Hgood).
    rewrite (tokenize_word_fuel always_half _ fuel 7) by (simpl; lia).
    vm_compute. reflexivity.
  - intros Hgood fuel w Hf.
    rewrite (tokenize_word_ext draws always_half Hgood).
    rewrite (tokenize_word_fuel always_half _ fuel 7) by (simpl; lia).
    vm_compute. reflexivity.
Qed.

Lemma greedy_longest_match_first_witness :
  fst <$> tokenize_word always_half 7 (bert ["un"; "##able"; "unable"])
            "unable" initial_world = Some ["unable"]
  /\ fst <$> tokenize_word always_half 7 (bert ["un"; "##able"])
               "unable" initial_world = Some ["un"; "##able"].
Proof.
  destruct (greedy_longest_match_first always_half)
    as (_ & Hwhole & Hpieces).
  split; [apply Hwhole | apply Hpieces]; try (intros i; reflexivity); lia.
Defined.

(** A scan that completes spells the word, whatever was drawn. *)
Lemma detokenize_completed_scan draws fuel self token w sub_tokens w' :
  String.length token < fuel ->
  outer_loop draws fuel self (list_ascii_of_string token) 0 [] w
  = Some (false, sub_tokens, w') ->
  detokenize sub_tokens = token.
Proof.
  intros Hf Hrun.
  rewrite <- length_list_ascii_of_string in Hf.
  destruct (outer_loop_ends draws self _ w fuel Hf)
    as (is_bad & sub_tokens' & w'' & Hrun' & Hend).
  rewrite Hrun in Hrun'. inversion Hrun'; subst. clear Hrun'.
  apply visits_detokenize in Hend. destruct Hend as [-> _].
  rewrite firstn_all. apply string_of_list_ascii_of_string.
Qed.

(** C4: for a word no longer than [max_input_chars_per_word], with no
    draw corrupting a match, whose scan completes (the loop ends with
    [is_bad] false), the output is the sub-tokens of the scan, and
    joining them, "##" taken off all but the first, gives the word back.
    (The draws play no part in it: [detokenize_completed_scan].) *)
Theorem detokenize_tokenize_word draws fuel self token w sub_tokens w' :
  no_corruption draws ->
  (Z.of_nat (String.length token) <= max_input_chars_per_word self)%Z ->
  String.length token < fuel ->
  outer_loop draws fuel self (list_ascii_of_string token) 0 [] w
  = Some (false, sub_tokens, w') ->
  tokenize_word draws fuel self token w = Some (sub_tokens, w')
  /\ detokenize sub_tokens = token.
Proof.
  intros _ Hmax Hf Hrun. split.
  - unfold tokenize_word. rewrite length_list_ascii_of_string.
    apply Z.le_ngt in Hmax.
    destruct (_ >? _)%Z eqn:Hgt; [apply Z.gtb_lt in Hgt; lia|].
    rewrite Hrun. reflexivity.
  - exact (detokenize_completed_scan draws fuel self token w sub_tokens w' Hf Hrun).
Qed.

Lemma detokenize_tokenize_word_witness :
  tokenize_word always_half 7 (bert ["un"; "##able"]) "unable" initial_world
  = Some (["un"; "##able"],
          {| draws_used := 2;
             queried := ["unable"; "unabl"; "unab"; "una"; "un"; "##able"] |})
  /\ detokenize ["un"; "##able"] = "unable".
Proof.
  apply (detokenize_tokenize_word always_half 7 (bert ["un"; "##able"])
           "unable" initial_world).
  - intros i. reflexivity.
  - vm_compute. discriminate.
  - vm_compute. lia.
  - vm_compute. reflexivity.
Defined.

(** C5: a word longer than [max_input_chars_per_word] gives
    [[unk_token]], whatever the vocabulary and the draws; nothing is
    looked up and nothing is drawn. *)
Theorem oversized_word_is_unk draws fuel self token w :
  (Z.of_nat (String.length token) > max_input_chars_per_word self)%Z ->
  tokenize_word draws fuel self token w = Some ([unk_token self], w).
Proof.
  intros Hlong. unfold tokenize_word.
  rewrite length_list_ascii_of_string.
  apply Z.gt_lt, Z.gtb_lt in Hlong. rewrite Hlong. reflexivity.
Qed.

Lemma oversized_word_is_unk_witness :
  tokenize_word always_zero 0
    {| vocab := {[ "abc" := 0 ]}; unk_token := "[UNK]";
       max_input_chars_per_word := 2 |} "abc" initial_world
  = Some (["[UNK]"], initial_world).
Proof.
  apply (oversized_word_is_unk always_zero 0
           {| vocab := {[ "abc" := 0 ]}; unk_token := "[UNK]";
              max_input_chars_per_word := 2 |} "abc" initial_world).
  vm_compute. reflexivity.
Defined.

(** C6: when, at a cursor the scan reaches, every candidate length is
    tried and none is accepted, the word gives exactly [[unk_token]]:
    the sub-tokens accepted before, [sub_tokens], are dropped. *)
Theorem exhausted_scan_is_unk draws fuel self token w0 start sub_tokens w e w' :
  let chars := list_ascii_of_string token in
  (Z.of_nat (String.length token) <= max_input_chars_per_word self)%Z ->
  String.length token < fuel ->
  visits draws self chars w0 start sub_tokens w ->
  start < length chars ->
  inner_loop draws self chars start (length chars) w = (None, e, w') ->
  tokenize_word draws fuel self token w0 = Some ([unk_token self], w').
Proof.
  intros chars Hmax Hf Hv Hlt Hin. unfold tokenize_word. fold chars.
  unfold chars at 1. rewrite length_list_ascii_of_string.
  apply Z.le_ngt in Hmax.
  destruct (_ >? _)%Z eqn:Hgt; [apply Z.gtb_lt in Hgt; lia|].
  assert (Hf' : length chars < fuel).
  { unfold chars. rewrite length_list_ascii_of_string. exact Hf. }
  destruct (visits_resume draws self chars w0 start sub_tokens w fuel Hv Hf')
    as [_ ->].
  destruct fuel as [|fuel]; [lia|].
  rewrite outer_loop_unfold.
  apply Nat.ltb_lt in Hlt. rewrite Hlt, Hin. reflexivity.
Qed.

Lemma exhausted_scan_is_unk_witness :
  tokenize_word always_half 3 (bert ["a"]) "ab" initial_world
  = Some (["[UNK]"], {| draws_used := 1; queried := ["ab"; "a"; "##b"] |}).
Proof.
  apply (exhausted_scan_is_unk always_half 3 (bert ["a"]) "ab" initial_world
           1 ["a"] {| draws_used := 1; queried := ["ab"; "a"] |} 1).
  - vm_compute. discriminate.
  - vm_compute. lia.
  - apply (visits_next always_half (bert ["a"]) (list_ascii_of_string "ab")
             initial_world 0 [] initial_world "a" 1).
    + apply visits_entry.
    + vm_compute. lia.
    + vm_compute. reflexivity.
  - vm_compute. lia.
  - vm_compute. reflexivity.
Defined.

(** C10: the scan of a word always ends. An accepted candidate ends
    past the cursor, at [start < end <= len(word)], so that the cursor
    advances on every turn of the outer loop, and the inner loop only
    counts [end] down: a fuel above the word's length is enough for
    every word, vocabulary and sequence of draws. Every word of
    [whitespace_tokenize] is non-empty, and a non-empty word adds at
    least one token to the output, so that the output of a text has at
    least as many tokens as the text has words. *)
Theorem tokenize_terminates draws self text fuel w :
  String.length text < fuel ->
  (forall chars start end_ w1 c e w2,
      inner_loop draws self chars start end_ w1 = (Some c, e, w2) ->
      start < e <= end_)
  /\ (forall token fuel' w1,
        String.length token < fuel' ->
        exists out w2,
          tokenize_word draws fuel' self token w1 = Some (out, w2)
          /\ (token <> "" -> out <> []))
  /\ Forall (fun token => token <> "") (whitespace_tokenize text)
  /\ exists out w',
       tokenize draws fuel self text w = Some (out, w')
       /\ length (whitespace_tokenize text) <= length out.
Proof.
  intros Hf. repeat split.
  - apply inner_loop_spec in H. destruct H as (_ & _ & He & _). lia.
  - apply inner_loop_spec in H. destruct H as (_ & _ & He & _). lia.
  - intros token fuel' w1. apply tokenize_word_total.
  - eapply Forall_impl; [apply whitespace_tokenize_words|]. simpl. tauto.
  - unfold tokenize.
    destruct (tokenize_words_total draws self fuel (whitespace_tokenize text) [] w)
      as (out & w' & Hrun & Hlen).
    + eapply Forall_impl; [apply whitespace_tokenize_words|].
      simpl. intros token [? ?]. split; [assumption | lia].
    + exists out, w'. split; [exact Hrun | simpl in Hlen; lia].
Qed.

Lemma tokenize_terminates_witness :
  exists out w',
    tokenize always_zero 10 (bert ["un"; "##able"]) " un  able" initial_world
    = Some (out, w')
    /\ length (whitespace_tokenize " un  able") <= length out.
Proof.
  apply (tokenize_terminates always_zero (bert ["un"; "##able"]) " un  able" 10
           initial_world).
  vm_compute. lia.
Defined.

(** ** Further properties of the code *)

Import Cleaning Batching Calls.
Import MoreTokenizerFacts MoreLoopFacts MoreMemoFacts CleaningFacts BatchingFacts.

(** X1: every token that [tokenize] puts out is [unk_token] or an entry
    of the vocabulary. *)
Theorem tokenize_output_known draws fuel self text w :
  String.length text < fuel ->
  exists out w',
    tokenize draws fuel self text w = Some (out, w')
    /\ Forall (fun token => token = unk_token self \/ known self token) out.
Proof.
  intros Hf. unfold tokenize.
  destruct (tokenize_words_total draws self fuel (whitespace_tokenize text) [] w)
    as (out & w' & Hrun & _).
  { eapply Forall_impl; [apply whitespace_tokenize_words|].
    simpl. intros token [? ?]. split; [assumption | lia]. }
  exists out, w'. split; [exact Hrun|].
  apply (tokenize_words_all draws self
           (fun token => token = unk_token self \/ known self token)
           fuel (whitespace_tokenize text) [] w out w');
    [|constructor | exact Hrun].
  intros token w1 new w2. apply tokenize_word_known.
Qed.

Lemma tokenize_output_known_witness :
  exists out w',
    tokenize always_half 10 (bert ["un"; "##able"]) "unable to" initial_world
    = Some (out, w')
    /\ Forall (fun token => token = unk_token (bert ["un"; "##able"])
                            \/ known (bert ["un"; "##able"]) token) out.
Proof.
  apply (tokenize_output_known always_half 10 (bert ["un"; "##able"])
           "unable to" initial_world).
  vm_compute. lia.
Defined.

(** X2: when every draw is at most 0.1, no candidate is ever accepted
    and each word of the text gives [unk_token]: the output is
    [unk_token] once per word. *)
Theorem always_corrupted_gives_unk draws fuel self text w :
  always_corrupted draws ->
  String.length text < fuel ->
  exists w',
    tokenize draws fuel self text w
    = Some (replicate (length (whitespace_tokenize text)) (unk_token self), w').
Proof.
  intros Hbad Hf. unfold tokenize.
  pose proof (whitespace_tokenize_words text) as Hwords.
  assert (Hgen : forall tokens acc w,
             Forall (fun token => token <> ""
                                  /\ String.length token <= String.length text)
               tokens ->
             exists w',
               tokenize_words draws fuel self tokens acc w
               = Some (acc ++ replicate (length tokens) (unk_token self), w')).
  { induction tokens as [|token tokens IH]; intros acc w0 Hall.
    - exists w0. simpl. rewrite app_nil_r. reflexivity.
    - inversion Hall as [|? ? [Hne Hlen] Hall']; subst.
      assert (Hword : exists w1, tokenize_word draws fuel self token w0
                                 = Some ([unk_token self], w1)).
      { unfold tokenize_word. destruct (_ >? _)%Z; [eexists; reflexivity|].
        destruct fuel as [|fuel']; [lia|]. rewrite outer_loop_unfold.
        assert (Hpos : 0 < length (list_ascii_of_string token)).
        { destruct token; [congruence | simpl; lia]. }
        apply Nat.ltb_lt in Hpos. rewrite Hpos.
        pose proof (inner_loop_always_corrupted draws self
                      (list_ascii_of_string token) 0
                      (length (list_ascii_of_string token)) w0 Hbad) as Hnone.
        destruct (inner_loop _ _ _ _ _ _) as [[r e] w1]. simpl in Hnone.
        subst r. eexists. reflexivity. }
      destruct Hword as [w1 Hword]. simpl. rewrite Hword.
      destruct (IH (acc ++ [unk_token self]) w1 Hall') as [w' Hrun].
      exists w'. rewrite Hrun, <- app_assoc. reflexivity. }
  destruct (Hgen (whitespace_tokenize text) [] w Hwords) as [w' Hrun].
  exists w'. rewrite Hrun. reflexivity.
Qed.

Lemma always_corrupted_gives_unk_witness :
  exists w',
    tokenize always_zero 10 (bert ["un"; "##able"]) "unable to" initial_world
    = Some (replicate (length (whitespace_tokenize "unable to"))
              (unk_token (bert ["un"; "##able"])), w').
Proof.
  apply (always_corrupted_gives_unk always_zero 10 (bert ["un"; "##able"])
           "unable to" initial_world).
  - intros i. reflexivity.
  - vm_compute. lia.
Defined.

(** X3: a text of whitespace only (the empty text too) has no word:
    [tokenize] returns no token, looks nothing up and draws nothing,
    whatever the fuel. *)
Theorem blank_text_gives_nothing draws fuel self text w :
  Forall (fun c => isspace c = true) (list_ascii_of_string text) ->
  whitespace_tokenize text = []
  /\ tokenize draws fuel self text w = Some ([], w).
Proof.
  intros Hblank.
  assert (Hnone : whitespace_tokenize text = []).
  { rewrite whitespace_tokenize_split.
    rewrite (split_spaces _ [] Hblank). reflexivity. }
  split; [exact Hnone|]. unfold tokenize. rewrite Hnone. reflexivity.
Qed.

Lemma blank_text_gives_nothing_witness :
  whitespace_tokenize "  " = []
  /\ tokenize always_half 0 (bert ["un"]) "  " initial_world
     = Some ([], initial_world).
Proof.
  apply (blank_text_gives_nothing always_half 0 (bert ["un"]) "  " initial_world).
  repeat constructor.
Defined.

(** X4: the words of [whitespace_tokenize] are non-empty and hold no
    whitespace character, and put end to end they are the text without
    its whitespace characters, in order. *)
Theorem whitespace_tokenize_words_of_text text :
  Forall (fun word => word <> "" /\ spaceless (list_ascii_of_string word))
    (whitespace_tokenize text)
  /\ concat (list_ascii_of_string <$> whitespace_tokenize text)
     = filter (fun c => isspace c = false) (list_ascii_of_string text).
Proof.
  rewrite whitespace_tokenize_split.
  destruct (split_spec (list_ascii_of_string text) [] (List.Forall_nil _))
    as [Hall Hcat].
  split.
  - apply Forall_fmap. eapply Forall_impl; [exact Hall|].
    simpl. intros word [Hne Hsp]. rewrite list_ascii_of_string_of_list_ascii.
    split; [|exact Hsp]. intros Hnil. apply Hne.
    rewrite <- (list_ascii_of_string_of_list_ascii word), Hnil. reflexivity.
  - rewrite <- list_fmap_compose.
    rewrite (list_fmap_ext (list_ascii_of_string ∘ string_of_list_ascii) id).
    + rewrite list_fmap_id. exact Hcat.
    + intros i word _. apply list_ascii_of_string_of_list_ascii.
Qed.

(** X5: when the scan of a word completes, it gives at most one piece
    per character; the first piece is a non-empty prefix of the word,
    with no marker put before it, and every later piece begins with the
    marker "##". An empty list of pieces is the empty word's. *)
Theorem completed_scan_pieces draws fuel self token w sub_tokens w' :
  String.length token < fuel ->
  outer_loop draws fuel self (list_ascii_of_string token) 0 [] w
  = Some (false, sub_tokens, w') ->
  length sub_tokens <= String.length token
  /\ match sub_tokens with
     | [] => token = ""
     | first :: rest =>
         first <> ""
         /\ (exists tail, token = first +:+ tail)
         /\ Forall (fun piece => exists body, piece = "##" +:+ body) rest
     end.
Proof.
  intros Hf Hrun.
  rewrite <- length_list_ascii_of_string in Hf.
  destruct (outer_loop_ends draws self _ w fuel Hf)
    as (is_bad & sub_tokens' & w'' & Hrun' & Hend).
  rewrite Hrun in Hrun'. inversion Hrun'; subst. clear Hrun'.
  pose proof (visits_detokenize _ _ _ _ _ _ _ Hend) as [_ Hzero].
  apply visits_pieces in Hend. destruct Hend as (_ & Hlen & Hshape).
  rewrite length_list_ascii_of_string in Hlen. split; [exact Hlen|].
  destruct sub_tokens' as [|first rest].
  - assert (Hz : length (list_ascii_of_string token) = 0) by (apply Hzero; reflexivity).
    rewrite length_list_ascii_of_string in Hz. destruct token; [reflexivity | discriminate].
  - destruct Hshape as [(e & He & Hfirst) Hrest].
    split; [|split; [|exact Hrest]].
    + subst first. destruct (list_ascii_of_string token) as [|c cs]; [simpl in He; lia|].
      destruct e; [lia | discriminate].
    + exists (string_of_list_ascii (drop e (list_ascii_of_string token))).
      subst first. rewrite <- string_of_list_ascii_app, take_drop.
      symmetry. apply string_of_list_ascii_of_string.
Qed.

Lemma completed_scan_pieces_witness :
  length ["un"; "##able"] <= String.length "unable"
  /\ "un" <> ""
  /\ (exists tail, "unable" = "un" +:+ tail)
  /\ Forall (fun piece => exists body, piece = "##" +:+ body) ["##able"].
Proof.
  apply (completed_scan_pieces always_half 7 (bert ["un"; "##able"]) "unable"
           initial_world ["un"; "##able"]
           {| draws_used := 2;
              queried := ["unable"; "unabl"; "unab"; "una"; "un"; "##able"] |}).
  - vm_compute. lia.
  - vm_compute. reflexivity.
Defined.

(** X6: a word of [n] characters costs at most [n * (n + 1) / 2]
    vocabulary lookups and no more draws than lookups, and gives at most
    [max(1, n)] tokens. *)
Theorem tokenize_word_work draws fuel self token w :
  String.length token < fuel ->
  exists out w',
    tokenize_word draws fuel self token w = Some (out, w')
    /\ 2 * candidates_tried w w' <= String.length token * (String.length token + 1)
    /\ draws_consumed w w' <= candidates_tried w w'
    /\ length out <= Nat.max 1 (String.length token).
Proof.
  intros Hf. unfold tokenize_word.
  destruct (_ >? _)%Z.
  { exists [unk_token self], w. split; [reflexivity|].
    unfold candidates_tried, draws_consumed. simpl. repeat split; lia. }
  rewrite <- length_list_ascii_of_string in *.
  set (chars := list_ascii_of_string token) in *.
  destruct (outer_loop_ends draws self chars w fuel Hf)
    as (is_bad & sub_tokens & w' & -> & Hend).
  exists (if is_bad then [unk_token self] else sub_tokens), w'.
  split; [reflexivity|].
  assert (Hsum : forall (w1 : world) tried,
             queried w1 = queried w ++ tried ->
             draws_used w1 = draws_used w + length (filter (known self) tried) ->
             candidates_tried w w1 = length tried
             /\ draws_consumed w w1 <= length tried).
  { intros w1 tried Hq Hd. unfold candidates_tried, draws_consumed.
    rewrite Hq, Hd, length_app.
    pose proof (length_filter (known self) tried). split; lia. }
  destruct is_bad.
  - destruct Hend as (start & w1 & e & Hv & Hlt & Hin).
    destruct (visits_accounting _ _ _ _ _ _ _ Hv) as (tried & Hq & Hd).
    destruct (visits_work _ _ _ _ _ _ _ Hv) as (tried' & Hq' & Hwork).
    rewrite Hq in Hq'. apply app_inv_head in Hq'. subst tried'.
    apply inner_loop_spec in Hin. destruct Hin as (Hq1 & Hd1 & _).
    rewrite Hq, <- app_assoc in Hq1. rewrite Hd in Hd1.
    destruct (Hsum w' _ Hq1) as [Htried Hdraws].
    { rewrite filter_app, length_app. lia. }
    rewrite Htried in *. rewrite length_app, length_fmap in *.
    unfold tried_ends in *. rewrite length_rev, length_seq in *.
    split; [|split; [exact Hdraws | simpl; lia]].
    set (n := length chars) in *.
    assert (Ha : exists a, n = start + S a) by (exists (n - start - 1); lia).
    destruct Ha as [a Ha].
    replace (n - start) with (S a) in Hwork by lia.
    replace (S n - S start) with (S a) by lia. nia.
  - destruct (visits_accounting _ _ _ _ _ _ _ Hend) as (tried & Hq & Hd).
    destruct (visits_work _ _ _ _ _ _ _ Hend) as (tried' & Hq' & Hwork).
    rewrite Hq in Hq'. apply app_inv_head in Hq'. subst tried'.
    apply visits_pieces in Hend. destruct Hend as (_ & Hlen & _).
    destruct (Hsum w' _ Hq Hd) as [Htried Hdraws].
    rewrite Htried. split; [|split; [exact Hdraws | lia]].
    rewrite Nat.sub_diag in Hwork. simpl in Hwork. lia.
Qed.

Lemma tokenize_word_work_witness :
  exists out w',
    tokenize_word always_half 7 (bert ["un"; "##able"]) "unable" initial_world
    = Some (out, w')
    /\ 2 * candidates_tried initial_world w'
       <= String.length "unable" * (String.length "unable" + 1)
    /\ draws_consumed initial_world w' <= candidates_tried initial_world w'
    /\ length out <= Nat.max 1 (String.length "unable").
Proof.
  apply (tokenize_word_work always_half 7 (bert ["un"; "##able"]) "unable"
           initial_world).
  vm_compute. lia.
Defined.

(** X7: a word of one character, where [max_input_chars_per_word] is
    at least 1, is looked up once and as it is: it is the output when it
    is in the vocabulary and the one draw exceeds 0.1, and [unk_token]
    is otherwise; no draw is made when it is not in the vocabulary. *)
Theorem single_character_word draws fuel self c w :
  let token := String c "" in
  let asked :=
    {| draws_used := draws_used w; queried := queried w ++ [token] |} in
  let drawn :=
    {| draws_used := S (draws_used w); queried := queried w ++ [token] |} in
  (1 <= max_input_chars_per_word self)%Z ->
  1 < fuel ->
  tokenize_word draws fuel self token w
  = Some (if bool_decide (known self token)
          then if F64.ltb F64.one_tenth (draws (draws_used w))
               then ([token], drawn)
               else ([unk_token self], drawn)
          else ([unk_token self], asked)).
Proof.
  intros token asked drawn Hmax Hf. unfold tokenize_word. simpl length.
  destruct (_ >? _)%Z eqn:Hgt; [apply Z.gtb_lt in Hgt; lia|].
  destruct fuel as [|[|fuel]]; try lia.
  simpl. change (candidate [c] 0 1) with token. unfold known.
  destruct (bool_decide (is_Some (vocab self !! token))); [|reflexivity].
  destruct (F64.ltb F64.one_tenth (draws (draws_used w))); reflexivity.
Qed.

Lemma single_character_word_witness :
  tokenize_word always_zero 2 (bert ["a"]) "a" initial_world
  = Some (["[UNK]"], {| draws_used := 1; queried := ["a"] |}).
Proof.
  apply (single_character_word always_zero 2 (bert ["a"]) "a"%char initial_world).
  - vm_compute. discriminate.
  - lia.
Defined.

(** X8: whenever [generate_target_dist] returns, the two sequences it
    returns have the same length, [num_bins], or 0 for a negative
    [num_bins]. *)
Theorem generate_target_dist_lengths cdf mean num_bins low high supports probs :
  generate_target_dist cdf mean num_bins low high = Return (supports, probs) ->
  length supports = Z.to_nat num_bins /\ length probs = Z.to_nat num_bins.
Proof.
  rewrite generate_target_dist_cases.
  destruct (_ <=? _)%Z; [discriminate|].
  destruct (num_bins =? 0)%Z; [discriminate|].
  destruct (num_bins <? 0)%Z eqn:Hneg.
  { apply Z.ltb_lt in Hneg. intros H; inversion H; subst. simpl. lia. }
  destruct (F64.is_zero _); [discriminate|].
  intros H; inversion H; subst. unfold centers.
  rewrite !length_fmap, range_length. split; reflexivity.
Qed.

Lemma generate_target_dist_lengths_witness :
  length example_centers = Z.to_nat 4
  /\ length (mass point_mass_cdf F64.half F64.zero F64.one
               (S754_finite false 4503599627370496 (-55)) <$> example_centers)
     = Z.to_nat 4.
Proof.
  apply (generate_target_dist_lengths point_mass_cdf F64.half 4 F64.zero F64.one).
  reflexivity.
Defined.

(** X9: whether [generate_target_dist] raises, what it raises and the
    centers it returns depend on [num_bins], [low] and [high] only: not
    on [mean], wherever it lies, nor on what [truncnorm.cdf] answers. *)
Theorem generate_target_dist_shape cdf cdf' mean mean' num_bins low high :
  match generate_target_dist cdf mean num_bins low high,
        generate_target_dist cdf' mean' num_bins low high with
  | Return (supports, _), Return (supports', _) => supports = supports'
  | Raise e, Raise e' => e = e'
  | _, _ => False
  end.
Proof.
  rewrite !generate_target_dist_cases.
  destruct (_ <=? _)%Z; [reflexivity|].
  destruct (num_bins =? 0)%Z; [reflexivity|].
  destruct (num_bins <? 0)%Z; [reflexivity|].
  destruct (F64.is_zero _); reflexivity.
Qed.

(** X10: a NaN bound is not refused: for a positive [num_bins] the call
    returns [num_bins] centers, all of them NaN. *)
Theorem nan_bound_is_accepted cdf mean num_bins low high :
  (0 < num_bins < F64.overflow_threshold)%Z ->
  F64.is_nan low = true \/ F64.is_nan high = true ->
  exists probs,
    generate_target_dist cdf mean num_bins low high
    = Return (replicate (Z.to_nat num_bins) S754_nan, probs).
Proof.
  intros Hn Hnan. rewrite generate_target_dist_cases.
  destruct (_ <=? _)%Z eqn:Hover; [apply Z.leb_le in Hover; lia|].
  destruct (num_bins =? 0)%Z eqn:Hz; [apply Z.eqb_eq in Hz; lia|].
  destruct (num_bins <? 0)%Z eqn:Hneg; [apply Z.ltb_lt in Hneg; lia|].
  assert (Hr : radius_value num_bins low high = S754_nan).
  { unfold radius_value.
    assert (Hsub : F64.sub high low = S754_nan).
    { destruct Hnan as [H|H]; [destruct low | destruct high]; try discriminate;
        [destruct high | ]; reflexivity. }
    rewrite Hsub. reflexivity. }
  rewrite Hr. simpl F64.is_zero. cbv iota. eexists. f_equal. f_equal.
  unfold centers, range. rewrite <- list_fmap_compose.
  generalize 0%nat. induction (Z.to_nat num_bins) as [|n IH]; intros i;
    [reflexivity|].
  simpl. f_equal; [|apply IH].
  unfold center_at. simpl F64.mul.
  destruct (F64.of_Z (Z.of_nat i)); destruct low; reflexivity.
Qed.

Lemma nan_bound_is_accepted_witness :
  exists probs,
    generate_target_dist point_mass_cdf F64.half 3 S754_nan F64.one
    = Return (replicate (Z.to_nat 3) S754_nan, probs).
Proof.
  apply (nan_bound_is_accepted point_mass_cdf F64.half 3 S754_nan F64.one).
  - vm_compute. split; reflexivity.
  - left. reflexivity.
Defined.

(** X12: nothing is evicted: once a call whose arguments are not NaN
    has returned, the same call returns the same value out of the cache
    after any number of other calls, whether they return or raise. *)
Theorem stored_result_survives cdf m mean num_bins low high v m' ks :
  F64.is_nan mean = false ->
  F64.is_nan low = false ->
  F64.is_nan high = false ->
  cached_generate_target_dist cdf m mean num_bins low high = (Return v, m') ->
  let later := after_calls (generator cdf) m' ks in
  cached_generate_target_dist cdf later mean num_bins low high
  = (Return v, later).
Proof.
  intros Hm Hl Hh Hfirst later. unfold cached_generate_target_dist in *.
  apply memo_call_hit. apply after_calls_keeps.
  apply (memo_call_stored _ _ _ _ _ (key_eqb_refl _ _ _ _ Hm Hl Hh) Hfirst).
Qed.

Lemma stored_result_survives_witness :
  exists v m',
    cached_generate_target_dist point_mass_cdf empty_memo
      F64.half 4 F64.zero F64.one = (Return v, m')
    /\ let later :=
         after_calls (generator point_mass_cdf) m'
           [(F64.half, 2%Z, F64.zero, F64.one); (F64.half, 0%Z, F64.zero, F64.one)]
       in
       cached_generate_target_dist point_mass_cdf later
         F64.half 4 F64.zero F64.one = (Return v, later).
Proof.
  eexists _, _. split; [vm_compute; reflexivity|].
  apply (stored_result_survives point_mass_cdf empty_memo
           F64.half 4 F64.zero F64.one).
  - reflexivity.
  - reflexivity.
  - reflexivity.
  - vm_compute. reflexivity.
Defined.

(** X13: arguments that are [==] are one key: after a call that
    returned, a call whose float arguments are [==] to its own, as
    [-0.0] is to [0.0], returns the stored value and computes
    nothing. *)
Theorem equal_arguments_share_an_entry
    cdf m mean num_bins low high mean' low' high' v m' :
  F64.eqb mean mean' = true ->
  F64.eqb low low' = true ->
  F64.eqb high high' = true ->
  cached_generate_target_dist cdf m mean num_bins low high = (Return v, m') ->
  cached_generate_target_dist cdf m' mean' num_bins low' high' = (Return v, m').
Proof.
  intros Hm Hl Hh Hfirst. unfold cached_generate_target_dist in *.
  apply memo_call_hit.
  rewrite (cache_get_equal_keys (mean, num_bins, low, high)).
  - refine (memo_call_stored _ _ _ _ _ _ Hfirst).
    apply key_eqb_refl; eapply arg_eqb_not_nan; eassumption.
  - simpl. unfold arg_eqb. rewrite Hm, Hl, Hh, Z.eqb_refl. reflexivity.
Qed.

Lemma equal_arguments_share_an_entry_witness :
  exists v m',
    cached_generate_target_dist point_mass_cdf empty_memo
      F64.half 4 F64.zero F64.one = (Return v, m')
    /\ cached_generate_target_dist point_mass_cdf m'
         F64.half 4 (S754_zero true) F64.one = (Return v, m').
Proof.
  eexists _, _. split; [vm_compute; reflexivity|].
  apply (equal_arguments_share_an_entry point_mass_cdf empty_memo
           F64.half 4 F64.zero F64.one F64.half (S754_zero true) F64.one).
  - reflexivity.
  - reflexivity.
  - reflexivity.
  - vm_compute. reflexivity.
Defined.

(** X14: after any calls from an empty cache, the cache holds no more
    entries than the undecorated function was entered, and a call
    answers what the undecorated function answers on arguments [==] to
    the ones given. *)
Theorem cache_answers_the_generator cdf ks mean num_bins low high :
  let m := after_calls (generator cdf) empty_memo ks in
  length (cache m) <= computations m
  /\ exists mean0 low0 high0,
       same_arg mean0 mean /\ same_arg low0 low /\ same_arg high0 high
       /\ fst (cached_generate_target_dist cdf m mean num_bins low high)
          = generate_target_dist cdf mean0 num_bins low0 high0.
Proof.
  intros m.
  assert (Hsound : sound (generator cdf) m).
  { apply after_calls_sound. split; [constructor | simpl; lia]. }
  split; [apply Hsound|].
  destruct (memo_call_answer (generator cdf) m (mean, num_bins, low, high) Hsound)
    as ([[[mean0 nb0] low0] high0] & [Heq|Heq] & Hans).
  - inversion Heq; subst.
    exists mean, low, high. repeat split; try (right; reflexivity). exact Hans.
  - simpl in Heq.
    apply andb_true_iff in Heq. destruct Heq as [Heq Hh].
    apply andb_true_iff in Heq. destruct Heq as [Heq Hl].
    apply andb_true_iff in Heq. destruct Heq as [Hm Hn].
    apply Z.eqb_eq in Hn. subst nb0.
    exists mean0, low0, high0.
    repeat split; try (apply arg_eqb_same; assumption). exact Hans.
Qed.

(** X15: [cln] is idempotent and leaves the words of a text as they
    are. *)
Theorem cln_keeps_the_words x :
  cln (cln x) = cln x /\ whitespace_tokenize (cln x) = whitespace_tokenize x.
Proof.
  assert (Hsplit : split [] (list_ascii_of_string (cln x))
                   = split [] (list_ascii_of_string x)).
  { unfold cln. apply split_join.
    apply (split_spec (list_ascii_of_string x) [] (List.Forall_nil _)). }
  split.
  - unfold cln at 1. rewrite Hsplit. reflexivity.
  - rewrite !whitespace_tokenize_split, Hsplit. reflexivity.
Qed.

(** X16: for a positive [BATCH_SIZE], the batches that the loops slice
    are, end to end, the first [n] rows: no row is left out or taken
    twice; and when there are [n] rows, no batch is empty or longer
    than [BATCH_SIZE]. *)
Theorem batches_partition {A : Type} (BATCH_SIZE : nat) (rows : list A) (n : nat) :
  0 < BATCH_SIZE ->
  concat (batches BATCH_SIZE rows n) = take n rows
  /\ (n <= length rows ->
      Forall (fun batch => 0 < length batch <= BATCH_SIZE)
        (batches BATCH_SIZE rows n)).
Proof.
  intros Hpos.
  destruct (range_by_length BATCH_SIZE n Hpos) as [Hcover Hstarts]. split.
  - unfold batches, range_by in *. rewrite batches_prefix.
    rewrite length_fmap, length_seq in Hcover. f_equal. lia.
  - intros Hn. unfold batches. apply Forall_fmap, Forall_forall.
    intros start Hin. apply Hstarts in Hin.
    unfold batch_at, rows_slice. simpl.
    rewrite length_take, length_drop. lia.
Qed.

Lemma batches_partition_witness :
  concat (batches 3 [1; 2; 3; 4; 5; 6; 7] 7) = take 7 [1; 2; 3; 4; 5; 6; 7]
  /\ (7 <= length [1; 2; 3; 4; 5; 6; 7] ->
      Forall (fun batch => 0 < length batch <= 3)
        (batches 3 [1; 2; 3; 4; 5; 6; 7] 7)).
Proof.
  apply (batches_partition 3 [1; 2; 3; 4; 5; 6; 7] 7). lia.
Defined.

(** X17: over [turns] batches, [train] calls [opt.step()]
    [turns / ACCUM_FOR] times; the gradients of the last
    [turns mod ACCUM_FOR] batches are left unapplied when it returns
    (added to the ones it found, when no step was made at all). *)
Theorem train_steps BATCH_SIZE ACCUM_FOR n opt :
  0 < BATCH_SIZE -> 0 < ACCUM_FOR ->
  let turns := length (range_by n BATCH_SIZE) in
  optimizer_steps (train BATCH_SIZE ACCUM_FOR n opt)
  = optimizer_steps opt + turns / ACCUM_FOR
  /\ unapplied (train BATCH_SIZE ACCUM_FOR n opt)
     = (if turns <? ACCUM_FOR then unapplied opt + turns
        else turns mod ACCUM_FOR).
Proof.
  intros _ Hacc turns. unfold train.
  destruct (turns_counted ACCUM_FOR Hacc opt (range_by n BATCH_SIZE) (0, opt))
    as [Hc Hn].
  { unfold counted. rewrite Nat.Div0.div_0_l.
    destruct (0 <? ACCUM_FOR) eqn:H; [split; lia|].
    apply Nat.ltb_ge in H. lia. }
  destruct (fold_left _ _ _) as [iter opt']. simpl in Hn. subst iter.
  exact Hc.
Qed.

Lemma train_steps_witness :
  optimizer_steps
    (train 16 2 40 {| optimizer_steps := 0; unapplied := 0 |}) = 0 + 3 / 2
  /\ unapplied (train 16 2 40 {| optimizer_steps := 0; unapplied := 0 |})
     = (if 3 <? 2 then 0 + 3 else 3 mod 2).
Proof.
  apply (train_steps 16 2 40 {| optimizer_steps := 0; unapplied := 0 |}); lia.
Defined.
